(** * AdEngine: expected-utility decisions over a learned Bayesian network

    A shallow embedding of [src/ad_engine.py].  The class [AdEngine] wraps a
    pomegranate [BayesianNetwork]; its method [decide] enumerates every joint
    value of the decision variables, asks the network for the posterior of
    the utility parent under each of them, and keeps the candidate with the
    greatest expected utility.

    Modelling choices.
    - Python [int]s are [Z].  Python [float]s are the binary64 numbers of
      [PrimFloat]: sums and products round to nearest, [-math.inf] is
      [neg_infinity], and a comparison with [nan] is false.  A utility score
      is an [int] or a [float]; multiplying a probability by an [int] first
      converts it, which raises [OverflowError] beyond the range of the
      floats.
    - The dictionaries that [decide] creates, copies and updates live in a
      heap addressed by references, next to the caller's [evidence]
      dictionary, so that aliasing between them is visible.
    - [self.util_map] is kept in insertion order (the source reads its first
      key); dictionaries whose order is not observed are [gmap]s.
    - [np.genfromtxt] and pomegranate belong to libraries.  What the
      constructor obtains from them is a field of the record [library]; the
      learned network is a field of the engine: a function from a query
      dictionary to either an exception or one entry per network variable. *)

From Stdlib Require Import ZArith QArith Lia Floats.
From stdpp Require Import base tactics option list sorting gmap strings fin_maps.

Local Open Scope string_scope.
Local Open Scope Z_scope.
Local Open Scope list_scope.

(** ** Python values *)

Inductive exn : Type :=
  | IndexError
  | ValueError
  | KeyError
  | AttributeError
  | OverflowError
  | SystemError
  | LibraryError.

Inductive result (A : Type) : Type :=
  | Ok (a : A)
  | Raise (e : exn).
Arguments Ok {A} a.
Arguments Raise {A} e.

Definition fails {A} (r : result A) : Prop := ∃ e, r = Raise e.

#[export] Instance result_ret : MRet result := λ A a, Ok a.
#[export] Instance result_bind : MBind result := λ A B f r,
  match r with
  | Ok a => f a
  | Raise e => Raise e
  end.

(** A utility score: an [int] or a [float]. *)
Inductive number : Type :=
  | Int (z : Z)
  | Float (f : float).

(** The conversion of an [int] that [float * int] performs: the nearest
    binary64 number, ties to even, and [OverflowError] when that would be
    infinite. *)
Definition to_float (z : Z) : result float :=
  match binary_normalize prec emax z 0 false with
  | S754_infinity _ => Raise OverflowError
  | x => Ok (SF2Prim x)
  end.

(** [p * score] for a float [p]. *)
Definition mul_score (p : float) (score : number) : result float :=
  match score with
  | Int z => f ← to_float z; Ok (p * f)%float
  | Float f => Ok (p * f)%float
  end.

(** A dictionary in insertion order: [d[k]] and [list(d.keys())]. *)
Fixpoint getitem {K A} `{EqDecision K} (k : K) (d : list (K * A)) : option A :=
  match d with
  | [] => None
  | (k', a) :: d' => if decide (k' = k) then Some a else getitem k d'
  end.

Definition keys {K A} (d : list (K * A)) : list K := d.*1.

(** [t.index(x)] on a tuple. *)
Fixpoint index {A} `{EqDecision A} (x : A) (t : list A) : option nat :=
  match t with
  | [] => None
  | y :: t' => if decide (y = x) then Some 0%nat else S <$> index x t'
  end.

(** ** The collaborators: numpy, itertools, pomegranate *)

(** The structured array returned by [np.genfromtxt(..., names=True)]: one
    named integer column per variable. *)
Record dataset : Type := Dataset { fields : list (string * list Z) }.

(** [data.dtype.names] *)
Definition names (data : dataset) : list string := keys (fields data).

(** [data[d]]: numpy raises [ValueError] when there is no field of that name. *)
Definition column (data : dataset) (d : string) : result (list Z) :=
  match getitem d (fields data) with
  | Some c => Ok c
  | None => Raise ValueError
  end.

(** [np.unique]: the distinct values of an array, in ascending order. *)
Fixpoint insert_unique (x : Z) (l : list Z) : list Z :=
  match l with
  | [] => [x]
  | y :: l' =>
      if x <? y then x :: l
      else if x =? y then l
      else y :: insert_unique x l'
  end.

Definition np_unique (a : list Z) : list Z := foldr insert_unique [] a.

(** [itertools.product] applied to the pools: the last pool varies fastest,
    and the product of no pool at all is the single empty tuple. *)
Fixpoint product (pools : list (list Z)) : list (list Z) :=
  match pools with
  | [] => [[]]
  | pool :: pools' => x ← pool; (x ::.) <$> product pools'
  end.

(** One element of the array returned by [predict_proba]: a distribution
    object, whose [parameters] attribute is a list of dictionaries from
    values to probabilities, or, for a variable fixed by the query, the bare
    value, which has no such attribute. *)
Inductive entry : Type :=
  | Distribution (parameters : list (list (Z * float)))
  | Observed (v : Z).

Definition parameters (x : entry) : option (list (list (Z * float))) :=
  match x with
  | Distribution ps => Some ps
  | Observed _ => None
  end.

(** The learned network, seen through [predict_proba]. *)
Definition bayesian_network : Type := gmap string Z → result (list entry).

(** The [structure] argument: for each variable, the positions of its
    parents. *)
Definition structure : Type := list (list nat).

(** What lines 40 and 41 ask of numpy and pomegranate: the records read from
    a file, and the network learned from records and a structure.  Both calls
    can raise. *)
Record library : Type := Library {
  genfromtxt : string → result dataset;
  from_structure : dataset → structure → result bayesian_network
}.

(** ** The engine object *)

Record AdEngine : Type := Engine {
  dec_vars : list string;
  util_map : list (string * gmap Z number);
  data : dataset;
  network : gmap string Z → result (list entry);
  dec_vars_permutations : list (list Z)
}.

(** [[f(x) for x in xs]] where [f] may raise. *)
Fixpoint comprehension {A B} (f : A → result B) (xs : list A) : result (list B) :=
  match xs with
  | [] => Ok []
  | x :: xs' =>
      match f x with
      | Raise e => Raise e
      | Ok y =>
          match comprehension f xs' with
          | Raise e => Raise e
          | Ok ys => Ok (y :: ys)
          end
      end
  end.

(** Lines 38, 39 and 42 of [AdEngine.__init__]: the assignments made once
    lines 40 and 41 have returned [data] and [net]. *)
Definition init (data : dataset) (net : gmap string Z → result (list entry))
    (dec_vars : list string) (util_map : list (string * gmap Z number))
    : result AdEngine :=
  match comprehension (λ d, match column data d with
                            | Ok c => Ok (np_unique c)
                            | Raise e => Raise e
                            end) dec_vars with
  | Raise e => Raise e
  | Ok perms => Ok (Engine dec_vars util_map data net perms)
  end.

(** [AdEngine.__init__], lines 38-42: an exception of [np.genfromtxt] or of
    [BayesianNetwork.from_structure] ends the construction before the
    candidate domains are computed. *)
Definition construct (lib : library) (data_file : string) (st : structure)
    (dec_vars : list string) (util_map : list (string * gmap Z number))
    : result AdEngine :=
  data ← genfromtxt lib data_file;
  net ← from_structure lib data st;
  init data net dec_vars util_map.

(** ** Program states and the monad of [decide] *)

Definition loc : Type := nat.

Record state : Type := State {
  self : AdEngine;
  heap : list (gmap string Z)
}.

Definition M (A : Type) : Type := state → result A * state.

#[export] Instance M_ret : MRet M := λ A a s, (Ok a, s).
#[export] Instance M_bind : MBind M := λ A B f m s,
  match m s with
  | (Ok a, s') => f a s'
  | (Raise e, s') => (Raise e, s')
  end.

Definition get_self : M AdEngine := λ s, (Ok (self s), s).

Definition lift {A} (r : result A) : M A := λ s, (r, s).

Definition or_raise {A} (e : exn) (o : option A) : M A :=
  match o with
  | Some a => mret a
  | None => lift (Raise e)
  end.

(** [{}] and [d.copy()] both build a new object. *)
Definition alloc (d : gmap string Z) : M loc :=
  λ s, (Ok (length (heap s)), State (self s) (heap s ++ [d])).

(** Reading through a reference.  References handed out by [alloc] are never
    dangling; [SystemError] is the answer for any other. *)
Definition deref (l : loc) : M (gmap string Z) :=
  λ s, match heap s !! l with
       | Some d => (Ok d, s)
       | None => (Raise SystemError, s)
       end.

Definition store (l : loc) (d : gmap string Z) : M unit :=
  λ s, (Ok tt, State (self s) (<[l := d]> (heap s))).

(** [d[k] = v] *)
Definition setitem (l : loc) (k : string) (v : Z) : M unit :=
  d ← deref l; store l (<[k := v]> d).

(** [d.copy()] *)
Definition copy (l : loc) : M loc :=
  d ← deref l; alloc d.

(** [d.update(other)]: the entries of [other] overwrite those of [d]. *)
Definition update (l other : loc) : M unit :=
  d ← deref l; o ← deref other; store l (o ∪ d).

(** [for x in xs: f(x)] *)
Fixpoint for_ {A} (xs : list A) (f : A → M unit) : M unit :=
  match xs with
  | [] => mret tt
  | x :: xs' => f x;; for_ xs' f
  end.

(** A loop that carries local variables [acc] from one iteration to the next. *)
Fixpoint foldM {A B} (f : B → A → M B) (acc : B) (xs : list A) : M B :=
  match xs with
  | [] => mret acc
  | x :: xs' => acc' ← f acc x; foldM f acc' xs'
  end.

(** ** [AdEngine.decide] *)

(** Line 61: [actions[self.dec_vars[i]] = combo[i]] *)
Definition set_action (actions : loc) (combo : list Z) (i : nat) : M unit :=
  self ← get_self;
  v ← or_raise IndexError (combo !! i);
  k ← or_raise IndexError (dec_vars self !! i);
  setitem actions k v.

(** Lines 59-63: the candidate assignment [actions] and the dictionary
    [total_evidence] that is handed to the network. *)
Definition candidate_evidence (evidence : loc) (combo : list Z) : M (loc * loc) :=
  actions ← alloc ∅;
  self ← get_self;
  for_ (seq 0 (length (dec_vars_permutations self))) (set_action actions combo);;
  total_evidence ← copy actions;
  update total_evidence evidence;;
  mret (actions, total_evidence).

(** Line 67: [possible_util += util[val] * self.util_map[names[util_index]][val]].
    The product is formed first, then added to [possible_util]; each
    operation rounds. *)
Definition add_utility (util_index : nat) (util : list (Z * float))
    (possible_util : float) (val : Z) : M float :=
  self ← get_self;
  p ← or_raise KeyError (getitem val util);
  name ← or_raise IndexError (names (data self) !! util_index);
  table ← or_raise KeyError (getitem name (util_map self));
  score ← or_raise KeyError (table !! val);
  x ← lift (mul_score p score);
  mret (possible_util + x)%float.

(** Lines 58 and 64-67.  [possible_util] starts as the [int] 0, which adds
    and compares as the float 0. *)
Definition expected_utility (util_index : nat) (total_evidence : loc) : M float :=
  self ← get_self;
  query ← deref total_evidence;
  probs ← lift (network self query);
  util_prob ← or_raise IndexError (probs !! util_index);
  params ← or_raise AttributeError (parameters util_prob);
  foldM (λ possible_util util,
           foldM (add_utility util_index util) possible_util (keys util))
        0%float params.

(** Lines 57-70: one iteration of the loop over [combos]; the local variables
    [best_combo] and [best_util] are carried along.  Line 68 is the float
    comparison [possible_util > best_util]. *)
Definition iteration (evidence : loc) (util_index : nat)
    (best : option loc * float) (combo : list Z) : M (option loc * float) :=
  '(actions, total_evidence) ← candidate_evidence evidence combo;
  possible_util ← expected_utility util_index total_evidence;
  if (best.2 <? possible_util)%float
  then mret (Some actions, possible_util)
  else mret best.

(** Lines 54-71.  The value returned is Python's [None] or a reference to the
    dictionary [best_combo]. *)
Definition decide (evidence : loc) : M (option loc) :=
  self ← get_self;
  let combos := product (dec_vars_permutations self) in
  self ← get_self;
  key ← or_raise IndexError (head (keys (util_map self)));
  util_index ← or_raise ValueError (index key (names (data self)));
  best ← foldM (iteration evidence util_index) (None, neg_infinity) combos;
  mret best.1.

(** What the caller sees: the contents of the returned dictionary, read in
    the state in which [decide] returns. *)
Definition snapshot (r : result (option loc)) (s : state)
    : result (option (gmap string Z)) :=
  match r with
  | Raise e => Raise e
  | Ok None => Ok None
  | Ok (Some l) =>
      match heap s !! l with
      | Some d => Ok (Some d)
      | None => Raise SystemError
      end
  end.

Definition call_decide (evidence : loc) (s : state)
    : result (option (gmap string Z)) * state :=
  let '(r, s') := decide evidence s in (snapshot r s', s').

(** ** What one call computes

    The functions below say, without a heap, which dictionaries and numbers
    [decide] produces.  They are related to the program by the lemmas of the
    next section and serve to state its properties. *)

Definition required {A} (e : exn) (o : option A) : result A :=
  match o with
  | Some a => Ok a
  | None => Raise e
  end.

Fixpoint fold_result {A B} (f : B → A → result B) (acc : B) (xs : list A)
    : result B :=
  match xs with
  | [] => Ok acc
  | x :: xs' => acc' ← f acc x; fold_result f acc' xs'
  end.

(** The dictionary built by the loop of line 60 from the dictionary [d],
    together with the exception that stopped it, if any. *)
Fixpoint fill (eng : AdEngine) (combo : list Z) (ixs : list nat)
    (d : gmap string Z) : result unit * gmap string Z :=
  match ixs with
  | [] => (Ok tt, d)
  | i :: ixs' =>
      match combo !! i, dec_vars eng !! i with
      | Some v, Some k => fill eng combo ixs' (<[k := v]> d)
      | _, _ => (Raise IndexError, d)
      end
  end.

(** The candidate assignment [actions] of a combination. *)
Definition assignment (eng : AdEngine) (combo : list Z) : result (gmap string Z) :=
  match fill eng combo (seq 0 (length (dec_vars_permutations eng))) ∅ with
  | (Ok _, d) => Ok d
  | (Raise e, _) => Raise e
  end.

(** The dictionary [total_evidence] made from [actions] and [evidence]. *)
Definition merged (evidence actions : gmap string Z) : gmap string Z :=
  evidence ∪ actions.

Definition weigh (eng : AdEngine) (util_index : nat) (util : list (Z * float))
    (possible_util : float) (val : Z) : result float :=
  p ← required KeyError (getitem val util);
  name ← required IndexError (names (data eng) !! util_index);
  table ← required KeyError (getitem name (util_map eng));
  score ← required KeyError (table !! val);
  x ← mul_score p score;
  Ok (possible_util + x)%float.

(** The number [possible_util] obtained for a query dictionary. *)
Definition utility (eng : AdEngine) (util_index : nat) (query : gmap string Z)
    : result float :=
  probs ← network eng query;
  util_prob ← required IndexError (probs !! util_index);
  params ← required AttributeError (parameters util_prob);
  fold_result (λ possible_util util,
                 fold_result (weigh eng util_index util) possible_util (keys util))
              0%float params.

(** A combination evaluated: its assignment and the utility computed for
    it. *)
Definition candidate (eng : AdEngine) (util_index : nat)
    (evidence : gmap string Z) (combo : list Z)
    : result (gmap string Z * float) :=
  d ← assignment eng combo;
  u ← utility eng util_index (merged evidence d);
  Ok (d, u).

(** Lines 68-70 on values. *)
Definition choose (best : option (gmap string Z) * float)
    (c : gmap string Z * float) : option (gmap string Z) * float :=
  if (best.2 <? c.2)%float then (Some c.1, c.2) else best.

Fixpoint select (eng : AdEngine) (util_index : nat) (evidence : gmap string Z)
    (best : option (gmap string Z) * float) (combos : list (list Z))
    : result (option (gmap string Z) * float) :=
  match combos with
  | [] => Ok best
  | combo :: combos' =>
      c ← candidate eng util_index evidence combo;
      select eng util_index evidence (choose best c) combos'
  end.

(** The position of the utility parent among the variables (line 56). *)
Definition utility_index (eng : AdEngine) : result nat :=
  key ← required IndexError (head (keys (util_map eng)));
  required ValueError (index key (names (data eng))).

Definition decision (eng : AdEngine) (evidence : gmap string Z)
    : result (option (gmap string Z)) :=
  util_index ← utility_index eng;
  best ← select eng util_index evidence (None, neg_infinity)
            (product (dec_vars_permutations eng));
  Ok best.1.

(** [weigh] once the table of the utility parent is known. *)
Definition weigh_table (table : gmap Z number) (util : list (Z * float))
    (possible_util : float) (val : Z) : result float :=
  p ← required KeyError (getitem val util);
  score ← required KeyError (table !! val);
  x ← mul_score p score;
  Ok (possible_util + x)%float.

(** The accumulation of lines 65-67 with the table made explicit: starting
    from 0, the products of probability and score are added one by one, in
    the order in which the distribution lists its values. *)
Definition accumulate (table : gmap Z number) (params : list (list (Z * float)))
    : result float :=
  fold_result (λ possible_util util,
                 fold_result (weigh_table table util) possible_util (keys util))
              0%float params.

(** ** The order of the floats

    The comparisons of [PrimFloat] are specified on [spec_float]; [rank]
    sends the numbers other than [nan] to triples of integers ordered
    lexicographically. *)

Definition rank (x : spec_float) : option (Z * Z * Z) :=
  match x with
  | S754_nan => None
  | S754_infinity true => Some (-2, 0, 0)
  | S754_finite true m e => Some (-1, - e, - Z.pos m)
  | S754_zero _ => Some (0, 0, 0)
  | S754_finite false m e => Some (1, e, Z.pos m)
  | S754_infinity false => Some (2, 0, 0)
  end.

Definition lex (a b : Z * Z * Z) : comparison :=
  match a.1.1 ?= b.1.1 with
  | Eq => match a.1.2 ?= b.1.2 with
          | Eq => a.2 ?= b.2
          | c => c
          end
  | c => c
  end.

(** ** The vocabulary of the statements *)

(** The utility parent: the first key of the utility map, its table, and its
    position among the variables of the data. *)
Definition utility_parent (eng : AdEngine) (key : string)
    (table : gmap Z number) (util_index : nat) : Prop :=
  ∃ rest, util_map eng = (key, table) :: rest
          ∧ index key (names (data eng)) = Some util_index.

(** [u] is the utility computed from the table [table] and the distribution
    that the network returns at position [util_index] for the query. *)
Definition table_utility (eng : AdEngine) (util_index : nat)
    (table : gmap Z number) (query : gmap string Z) (u : float) : Prop :=
  ∃ probs params,
    network eng query = Ok probs
    ∧ probs !! util_index = Some (Distribution params)
    ∧ accumulate table params = Ok u.

(** The combination [combo] stands for the assignment [a], whose query under
    the evidence [e] is worth [u]. *)
Definition scored (eng : AdEngine) (util_index : nat) (table : gmap Z number)
    (e : gmap string Z) (combo : list Z) (a : gmap string Z) (u : float)
    : Prop :=
  assignment eng combo = Ok a
  ∧ table_utility eng util_index table (merged e a) u.

(** [a] is the assignment of the first combination of [combos] whose
    computed utility is maximal: it is greater than [-math.inf]; for a
    combination [c] before it, of utility [u'], the comparison [u' >= u] is
    false; for one after it, [u' > u] is false. *)
Definition first_best_by (eng : AdEngine) (util_index : nat)
    (table : gmap Z number) (e : gmap string Z) (combos : list (list Z))
    (a : gmap string Z) : Prop :=
  ∃ before combo after u,
    combos = before ++ combo :: after
    ∧ scored eng util_index table e combo a u
    ∧ (neg_infinity <? u)%float = true
    ∧ Forall (λ c, ∃ a' u', scored eng util_index table e c a' u'
                            ∧ (u <=? u')%float = false) before
    ∧ Forall (λ c, ∃ a' u', scored eng util_index table e c a' u'
                            ∧ (u <? u')%float = false) after.

Definition first_best (eng : AdEngine) (e : gmap string Z)
    (combos : list (list Z)) (a : gmap string Z) : Prop :=
  ∃ key table util_index,
    utility_parent eng key table util_index
    ∧ first_best_by eng util_index table e combos a.

(** [R] holds of the utility computed for the combination [combo]. *)
Definition has_utility (eng : AdEngine) (util_index : nat)
    (evidence : gmap string Z) (R : float → Prop) (combo : list Z) : Prop :=
  ∃ a u, candidate eng util_index evidence combo = Ok (a, u) ∧ R u.

(** [first_best_by] on the values of [candidate]. *)
Definition first_maximal (eng : AdEngine) (util_index : nat)
    (evidence : gmap string Z) (combos : list (list Z))
    (a : gmap string Z) (u : float) : Prop :=
  ∃ before combo after,
    combos = before ++ combo :: after
    ∧ candidate eng util_index evidence combo = Ok (a, u)
    ∧ Forall (has_utility eng util_index evidence
                (λ u', (u <=? u')%float = false)) before
    ∧ Forall (has_utility eng util_index evidence
                (λ u', (u <? u')%float = false)) after.

(** A reference to the best assignment so far and the assignment itself. *)
Definition points (h : list (gmap string Z)) (l : option loc)
    (d : option (gmap string Z)) : Prop :=
  match l, d with
  | None, None => True
  | Some l, Some d => h !! l = Some d
  | _, _ => False
  end.

(** [pool] lists the distinct values of [col] in ascending order. *)
Definition ascending_values (col pool : list Z) : Prop :=
  StronglySorted Z.lt pool ∧ ∀ x, x ∈ pool ↔ x ∈ col.

(** The distinct values of a column in the order in which they are first
    seen, the domain order that the specification names. *)
Fixpoint first_observed (col : list Z) : list Z :=
  match col with
  | [] => []
  | x :: col' => x :: filter (λ y, y ≠ x) (first_observed col')
  end.

(** The engine with another utility map. *)
Definition with_util_map (eng : AdEngine) (um : list (string * gmap Z number))
    : AdEngine :=
  Engine (dec_vars eng) um (data eng) (network eng) (dec_vars_permutations eng).

(** The engine with another network. *)
Definition with_network (eng : AdEngine)
    (net : gmap string Z → result (list entry)) : AdEngine :=
  Engine (dec_vars eng) (util_map eng) (data eng) net
         (dec_vars_permutations eng).

(** No [int] score of the table is beyond the range of the floats. *)
Definition convertible (table : gmap Z number) : Prop :=
  ∀ v z, table !! v = Some (Int z) → ∃ f, to_float z = Ok f.

(** ** Expected utility in exact arithmetic

    The specification words the expected utility as a sum of products of
    real numbers.  [exact] gives the rational that a finite float stands
    for. *)

Definition exact (f : float) : option Q :=
  match Prim2SF f with
  | S754_zero _ => Some 0%Q
  | S754_finite s m e =>
      Some ((if s then -1 else 1) * inject_Z (Z.pos m) * Qpower 2 e)%Q
  | _ => None
  end.

Definition exact_score (score : number) : option Q :=
  match score with
  | Int z => Some (inject_Z z)
  | Float f => exact f
  end.

(** One term of the expected utility: probability times score. *)
Definition term (table : gmap Z number) (util : list (Z * float)) (val : Z)
    : option Q :=
  p ← getitem val util;
  score ← table !! val;
  x ← exact p;
  y ← exact_score score;
  Some (x * y)%Q.

(** The sum, over the values of a distribution, of the probability of the
    value times its score. *)
Definition expectation (table : gmap Z number)
    (params : list (list (Z * float))) : option Q :=
  foldr (λ t acc, x ← t; y ← acc; Some (x + y)%Q) (Some 0%Q)
        (util ← params; term table util <$> keys util).

(** [x] is the expected utility of the assignment [a] under the evidence
    [e]: the posterior of the utility parent, queried with the combined
    evidence, weighted by the scores of the utility map. *)
Definition expected_utility_of (eng : AdEngine) (e a : gmap string Z) (x : Q)
    : Prop :=
  ∃ key table util_index probs params,
    utility_parent eng key table util_index
    ∧ network eng (merged e a) = Ok probs
    ∧ probs !! util_index = Some (Distribution params)
    ∧ ∃ y, expectation table params = Some y ∧ (x == y)%Q.

(** ** The claims of the specification that the code does not meet

    Each is stated as the specification words it, to be refuted below. *)

(** The reading of the specification: on a shared key the query holds the
    candidate's value. *)
Definition candidate_takes_precedence (s : state) (evidence : loc)
    (combo : list Z) : Prop :=
  ∀ e actions total_evidence s' d q k v,
    heap s !! evidence = Some e →
    candidate_evidence evidence combo s = (Ok (actions, total_evidence), s') →
    heap s' !! actions = Some d →
    heap s' !! total_evidence = Some q →
    d !! k = Some v → is_Some (e !! k) →
    q !! k = Some v.

(** The reading of the specification: the expected utility of the returned
    assignment, a sum of products of real numbers, is at least that of every
    assignment of the enumeration. *)
Definition exactly_optimal (s : state) (evidence : loc) : Prop :=
  ∀ e a,
    heap s !! evidence = Some e →
    (call_decide evidence s).1 = Ok (Some a) →
    ∃ x, expected_utility_of (self s) e a x
         ∧ ∀ combo a' x',
             combo ∈ product (dec_vars_permutations (self s)) →
             assignment (self s) combo = Ok a' →
             expected_utility_of (self s) e a' x' →
             (x' <= x)%Q.

(** The reading of the specification: among tied assignments the one
    returned is the first of the product of the first-observed domains. *)
Definition first_observed_tie_break (data0 : dataset)
    (net : gmap string Z → result (list entry)) (dv : list string)
    (um : list (string * gmap Z number)) (h : list (gmap string Z))
    (evidence : loc) : Prop :=
  ∀ eng e a cols,
    init data0 net dv um = Ok eng →
    h !! evidence = Some e →
    (call_decide evidence (State eng h)).1 = Ok (Some a) →
    comprehension (column data0) dv = Ok cols →
    first_best eng e (product (first_observed <$> cols)) a.

(** The reading of the specification: a value without a score counts for 0,
    that is, [decide] behaves as if the table gave it the score 0. *)
Definition missing_counts_zero (eng : AdEngine) (h : list (gmap string Z))
    (evidence : loc) : Prop :=
  ∀ key table rest v,
    util_map eng = (key, table) :: rest →
    table !! v = None →
    (call_decide evidence (State eng h)).1
    = (call_decide evidence
         (State (with_util_map eng ((key, <[v := Int 0]> table) :: rest)) h)).1.

(** ** Example engines

    Small engines on which the model is run in the concrete statements
    below.  They stand for three variables: the decision [Ad1], the
    observation [G] and the sale [S], the utility parent. *)

Module Demo.

Definition demo_data : dataset :=
  Dataset [("Ad1", [1; 0; 1; 0]); ("G", [0; 0; 1; 1]); ("S", [0; 1; 2; 1])].

Definition half : float := 0.5%float.

Definition quarter : float := 0.25%float.

(** A network that answers every query: a variable fixed by the query comes
    back as its bare value, and the distribution of the sale depends on the
    value of [Ad1] in the query. *)
Definition demo_net (query : gmap string Z) : result (list entry) :=
  let ad := match query !! "Ad1" with
            | Some v => Observed v
            | None => Distribution [[(0, half); (1, half)]]
            end in
  let g := match query !! "G" with
           | Some v => Observed v
           | None => Distribution [[(0, half); (1, half)]]
           end in
  let sale := match query !! "Ad1" with
              | Some 1 => Distribution [[(0, quarter); (1, quarter); (2, half)]]
              | _ => Distribution [[(0, half); (1, quarter); (2, quarter)]]
              end in
  Ok [ad; g; sale].

(** A network under which every candidate has the same expected utility. *)
Definition flat_net (query : gmap string Z) : result (list entry) :=
  Ok [Distribution [[(0, half); (1, half)]];
      Distribution [[(0, half); (1, half)]];
      Distribution [[(0, half); (1, quarter); (2, quarter)]]].

(** A network under which a sale is lost for sure with [Ad1 = 0] and is
    even between the two kinds of sale with [Ad1 = 1]. *)
Definition sharp_net (query : gmap string Z) : result (list entry) :=
  let sale := match query !! "Ad1" with
              | Some 1 => Distribution [[(0, 0%float); (1, half); (2, half)]]
              | _ => Distribution [[(0, 1%float); (1, 0%float); (2, 0%float)]]
              end in
  Ok [Observed 0; Distribution [[(0, half); (1, half)]]; sale].

(** The scores of the tests of the source: [{0: 0, 1: 5000, 2: 17760}]. *)
Definition sale_table : gmap Z number :=
  {[ 0 := Int 0; 1 := Int 5000; 2 := Int 17760 ]}.

(** A table that gives no score to the value 2. *)
Definition short_table : gmap Z number :=
  {[ 0 := Int 0; 1 := Int 5000 ]}.


(** Scores so large that adding 1 to their expectation is lost in
    rounding: [{0: 10**16, 1: 2 * 10**16, 2: 2}]. *)
Definition large_table : gmap Z number :=
  {[ 0 := Int (10 ^ 16); 1 := Int (2 * 10 ^ 16); 2 := Int 2 ]}.

Definition demo_util : list (string * gmap Z number) := [("S", sale_table)].

Definition short_util : list (string * gmap Z number) := [("S", short_table)].

(** A utility map with a score for 99, a value that [S] never takes. *)
Definition wide_util : list (string * gmap Z number) :=
  [("S", <[99 := Int 1]> sale_table)].


Definition demo_engine : AdEngine :=
  Engine ["Ad1"] demo_util demo_data demo_net [[0; 1]].

Definition flat_engine : AdEngine :=
  Engine ["Ad1"] demo_util demo_data flat_net [[0; 1]].

(** An engine with no decision variable. *)
Definition bare_engine : AdEngine :=
  Engine [] demo_util demo_data demo_net [].

Definition short_engine : AdEngine :=
  Engine ["Ad1"] short_util demo_data demo_net [[0; 1]].

Definition wide_engine : AdEngine :=
  Engine ["Ad1"] wide_util demo_data demo_net [[0; 1]].


Definition large_engine : AdEngine :=
  Engine ["Ad1"] [("S", large_table)] demo_data sharp_net [[0; 1]].

(** A caller holding the evidence [{"G": 1}]. *)
Definition demo_state : state := State demo_engine [{[ "G" := 1 ]}].

(** A caller whose evidence [{"Ad1": 1}] names the decision variable. *)
Definition clash_state : state := State demo_engine [{[ "Ad1" := 1 ]}].

(** The state in which the first candidate of [clash_state] has been built:
    the caller's evidence, then [actions] and [total_evidence]. *)
Definition clash_after : state :=
  State demo_engine [{[ "Ad1" := 1 ]}; {[ "Ad1" := 0 ]}; {[ "Ad1" := 1 ]}].

Definition short_state : state := State short_engine [∅].


Definition large_state : state := State large_engine [∅].

(** What [demo_net] answers when the query fixes [Ad1] to 0. *)
Definition short_probs : list entry :=
  [Observed 0;
   Distribution [[(0, half); (1, half)]];
   Distribution [[(0, half); (1, quarter); (2, quarter)]]].

End Demo.

(** ** Further example engines *)

Module Cases.

(** The records of [Demo.demo_data] in another order, one of them twice. *)
Definition shuffled_data : dataset :=
  Dataset [("Ad1", [0; 1; 1; 0; 1]); ("G", [1; 0; 1; 0; 1]);
           ("S", [1; 2; 2; 0; 1])].

(** A network that rejects the queries in which [G] is 7. *)
Definition fussy_net (query : gmap string Z) : result (list entry) :=
  match query !! "G" with
  | Some 7 => Raise LibraryError
  | _ => Demo.demo_net query
  end.

Definition fussy_engine : AdEngine :=
  Engine ["Ad1"] Demo.demo_util Demo.demo_data fussy_net [[0; 1]].

Definition fussy_state : state := State fussy_engine [{[ "G" := 7 ]}].

(** A network that returns the bare value of [S] when the query fixes it. *)
Definition observing_net (query : gmap string Z) : result (list entry) :=
  match query !! "S" with
  | Some v =>
      Ok [Observed 0; Distribution [[(0, Demo.half); (1, Demo.half)]];
          Observed v]
  | None => Demo.demo_net query
  end.

(** What [observing_net] answers when the query fixes [S] to 2. *)
Definition observed_probs : list entry :=
  [Observed 0; Distribution [[(0, Demo.half); (1, Demo.half)]]; Observed 2].

Definition observing_engine : AdEngine :=
  Engine ["Ad1"] Demo.demo_util Demo.demo_data observing_net [[0; 1]].

Definition observing_state : state := State observing_engine [{[ "S" := 2 ]}].

(** A network that differs from [Demo.demo_net] on the queries that mention
    a variable [T] only. *)
Definition partial_net (query : gmap string Z) : result (list entry) :=
  match query !! "T" with
  | Some _ => Raise LibraryError
  | None => Demo.demo_net query
  end.

(** An engine whose utility map is empty, and one whose utility parent [Q]
    is no variable of the data. *)
Definition no_util_state : state :=
  State (Engine ["Ad1"] [] Demo.demo_data Demo.demo_net [[0; 1]]) [∅].

Definition stray_state : state :=
  State (Engine ["Ad1"] [("Q", Demo.sale_table)] Demo.demo_data Demo.demo_net
                [[0; 1]]) [∅].

(** Scores that are all [-math.inf]: [{0: -inf, 1: -inf, 2: -inf}]. *)
Definition ruinous_table : gmap Z number :=
  {[ 0 := Float neg_infinity; 1 := Float neg_infinity;
     2 := Float neg_infinity ]}.

Definition ruinous_engine : AdEngine :=
  Engine ["Ad1"] [("S", ruinous_table)] Demo.demo_data Demo.demo_net [[0; 1]].

(** A score beyond the range of the floats: [{0: 0, 1: 5000, 2: 10**400}]. *)
Definition huge_table : gmap Z number :=
  {[ 0 := Int 0; 1 := Int 5000; 2 := Int (10 ^ 400) ]}.

(** The file system and the learner seen by the constructor: one file of
    records, one file that numpy cannot read as integers, and a learner that
    rejects a structure with the wrong number of variables. *)
Definition demo_library : library :=
  Library
    (λ data_file,
       if String.eqb data_file "hw3_data.csv" then Ok Demo.demo_data
       else if String.eqb data_file "wide.csv" then Raise OverflowError
       else Raise LibraryError)
    (λ data0 st,
       if Nat.eqb (length st) (length (names data0)) then Ok Demo.demo_net
       else Raise ValueError).

End Cases.
(** * Lemmas *)

(** ** Cells of the heap *)

Lemma lookup_last_cell {A} (h : list A) (x : A) :
  (h ++ [x]) !! length h = Some x.
Proof. by apply list_lookup_middle. Qed.

Lemma lookup_after_last {A} (h : list A) (x y : A) :
  (h ++ [x; y]) !! S (length h) = Some y.
Proof.
  rewrite (lookup_app_r h) by lia.
  by replace (S (length h) - length h)%nat with 1%nat by lia.
Qed.

Lemma lookup_before_last {A} (h : list A) (x y : A) :
  (h ++ [x; y]) !! length h = Some x.
Proof. by apply list_lookup_middle. Qed.

Lemma insert_last_cell {A} (h : list A) (x y : A) :
  <[length h := y]> (h ++ [x]) = h ++ [y].
Proof.
  rewrite insert_app_r_alt by lia.
  by rewrite Nat.sub_diag.
Qed.

(** ** The program computes these values *)

Lemma bind_run {A B} (m : M A) (f : A → M B) (s : state) :
  (m ≫= f) s = match m s with
               | (Ok a, s') => f a s'
               | (Raise e, s') => (Raise e, s')
               end.
Proof. reflexivity. Qed.

Lemma or_raise_run {A} (e : exn) (o : option A) (s : state) :
  or_raise e o s = (required e o, s).
Proof. by destruct o. Qed.

Lemma setitem_last (eng : AdEngine) (h : list (gmap string Z))
    (d : gmap string Z) (k : string) (v : Z) :
  setitem (length h) k v (State eng (h ++ [d]))
  = (Ok tt, State eng (h ++ [<[k := v]> d])).
Proof.
  unfold setitem. rewrite bind_run. unfold deref, store. simpl.
  rewrite lookup_last_cell. simpl. by rewrite insert_last_cell.
Qed.

Lemma fill_run (eng : AdEngine) (h : list (gmap string Z)) (combo : list Z)
    (ixs : list nat) (d : gmap string Z) :
  for_ ixs (set_action (length h) combo) (State eng (h ++ [d]))
  = ((fill eng combo ixs d).1, State eng (h ++ [(fill eng combo ixs d).2])).
Proof.
  revert d. induction ixs as [|i ixs IH]; intros d; [done|].
  cbn [for_ fill]. rewrite bind_run. unfold set_action at 1.
  rewrite bind_run. cbn [get_self self].
  rewrite bind_run, or_raise_run.
  destruct (combo !! i) as [v|]; [|done]. cbn [required].
  rewrite bind_run, or_raise_run.
  destruct (dec_vars eng !! i) as [k|]; [|done]. cbn [required].
  rewrite setitem_last. apply IH.
Qed.

Lemma candidate_evidence_run (eng : AdEngine) (h : list (gmap string Z))
    (evidence : loc) (e : gmap string Z) (combo : list Z) :
  h !! evidence = Some e →
  candidate_evidence evidence combo (State eng h)
  = match fill eng combo (seq 0 (length (dec_vars_permutations eng))) ∅ with
    | (Ok _, d) =>
        (Ok (length h, S (length h)), State eng (h ++ [d; merged e d]))
    | (Raise x, d) => (Raise x, State eng (h ++ [d]))
    end.
Proof.
  intros Hev. unfold candidate_evidence.
  rewrite bind_run. cbn [alloc heap self].
  rewrite bind_run. cbn [get_self self].
  rewrite bind_run, fill_run.
  destruct (fill eng combo _ ∅) as [[[]|x] d]; cbn [fst snd]; [|done].
  rewrite bind_run. unfold copy. rewrite bind_run.
  unfold deref at 1. cbn [heap]. rewrite lookup_last_cell.
  cbn [alloc heap self]. rewrite bind_run.
  unfold update. rewrite bind_run.
  unfold deref at 1. cbn [heap]. rewrite lookup_last_cell.
  rewrite bind_run. unfold deref. cbn [heap].
  rewrite <- (assoc_L (++)), (lookup_app_l_Some _ _ _ _ Hev).
  cbn [store heap self mret M_ret].
  rewrite (assoc_L (++)), insert_last_cell, <- (assoc_L (++)).
  by rewrite length_app, Nat.add_1_r.
Qed.

Lemma add_utility_run (util_index : nat) (util : list (Z * float))
    (possible_util : float) (val : Z) (s : state) :
  add_utility util_index util possible_util val s
  = (weigh (self s) util_index util possible_util val, s).
Proof.
  unfold add_utility, weigh. rewrite bind_run. cbn [get_self].
  repeat (rewrite bind_run, or_raise_run;
          match goal with |- context [required _ ?o] => destruct o end;
          cbn [required mbind result_bind]; [|done]).
  rewrite bind_run. unfold lift.
  match goal with |- context [mul_score ?p ?x] => by destruct (mul_score p x) end.
Qed.

Lemma foldM_run {A B} (f : B → A → M B) (g : AdEngine → B → A → result B)
    (acc : B) (xs : list A) (s : state) :
  (∀ b a, f b a s = (g (self s) b a, s)) →
  foldM f acc xs s = (fold_result (g (self s)) acc xs, s).
Proof.
  intros Hf. revert acc. induction xs as [|x xs IH]; intros acc; [done|].
  cbn [foldM fold_result]. rewrite bind_run, Hf.
  destruct (g (self s) acc x); cbn [mbind result_bind]; [apply IH|done].
Qed.

Lemma expected_utility_run (util_index : nat) (total_evidence : loc)
    (query : gmap string Z) (s : state) :
  heap s !! total_evidence = Some query →
  expected_utility util_index total_evidence s
  = (utility (self s) util_index query, s).
Proof.
  intros Hq. unfold expected_utility, utility.
  rewrite bind_run. cbn [get_self].
  rewrite bind_run. unfold deref. rewrite Hq.
  rewrite bind_run. unfold lift.
  destruct (network (self s) query) as [probs|]; cbn [mbind result_bind]; [|done].
  rewrite bind_run, or_raise_run.
  destruct (probs !! util_index) as [util_prob|];
    cbn [required mbind result_bind]; [|done].
  rewrite bind_run, or_raise_run.
  destruct (parameters util_prob) as [params|];
    cbn [required mbind result_bind]; [|done].
  apply (foldM_run _ (λ eng possible_util util,
    fold_result (weigh eng util_index util) possible_util (keys util))).
  intros b a.
  apply (foldM_run _ (λ eng, weigh eng util_index a)).
  intros b' v. apply add_utility_run.
Qed.

Lemma points_app (h t : list (gmap string Z)) (l : option loc)
    (d : option (gmap string Z)) :
  points h l d → points (h ++ t) l d.
Proof.
  destruct l, d; cbn; try done. apply lookup_app_l_Some.
Qed.

Lemma iteration_run (eng : AdEngine) (h : list (gmap string Z))
    (evidence : loc) (e : gmap string Z) (util_index : nat)
    (bl : option loc) (bd : option (gmap string Z)) (bu : float)
    (combo : list Z) :
  h !! evidence = Some e →
  points h bl bd →
  ∃ t r, iteration evidence util_index (bl, bu) combo (State eng h)
         = (r, State eng (h ++ t))
    ∧ match candidate eng util_index e combo with
      | Raise x => r = Raise x
      | Ok c => ∃ bl', r = Ok (bl', (choose (bd, bu) c).2)
                       ∧ points (h ++ t) bl' (choose (bd, bu) c).1
      end.
Proof.
  intros Hev Hbest. unfold iteration, candidate, assignment.
  rewrite bind_run, (candidate_evidence_run _ _ _ _ _ Hev).
  destruct (fill eng combo _ ∅) as [[[]|x] d]; cbn [mbind result_bind];
    [|by eexists _, _].
  rewrite bind_run.
  rewrite (expected_utility_run _ _ (merged e d));
    [|apply lookup_after_last].
  cbn [self].
  destruct (utility eng util_index (merged e d)) as [u|x];
    cbn [mbind result_bind]; [|by eexists _, _].
  exists [d; merged e d]. unfold choose. cbn [fst snd].
  destruct (bu <? u)%float; eexists; (split; [reflexivity|]);
    eexists; (split; [reflexivity|]); cbn [fst snd].
  - apply lookup_before_last.
  - by apply points_app.
Qed.

Lemma select_run (eng : AdEngine) (evidence : loc) (e : gmap string Z)
    (util_index : nat) (combos : list (list Z)) :
  ∀ (h : list (gmap string Z)) (bl : option loc)
    (bd : option (gmap string Z)) (bu : float),
  h !! evidence = Some e →
  points h bl bd →
  ∃ t r, foldM (iteration evidence util_index) (bl, bu) combos (State eng h)
         = (r, State eng (h ++ t))
    ∧ match select eng util_index e (bd, bu) combos with
      | Raise x => r = Raise x
      | Ok best => ∃ bl', r = Ok (bl', best.2) ∧ points (h ++ t) bl' best.1
      end.
Proof.
  induction combos as [|combo combos IH]; intros h bl bd bu Hev Hbest.
  - exists [], (Ok (bl, bu)). rewrite app_nil_r. split; [done|].
    cbn. by exists bl.
  - cbn [foldM select]. rewrite bind_run.
    destruct (iteration_run eng h evidence e util_index bl bd bu combo Hev Hbest)
      as (t & r & -> & Hr).
    destruct (candidate eng util_index e combo) as [c|x];
      cbn [mbind result_bind].
    + destruct Hr as (bl' & -> & Hbest').
      destruct (IH (h ++ t) bl' (choose (bd, bu) c).1 (choose (bd, bu) c).2)
        as (t' & r' & Hrun & Hr'); [by apply lookup_app_l_Some|done|].
      exists (t ++ t'), r'. rewrite (assoc_L (++)). split; [done|].
      by destruct (choose (bd, bu) c).
    + subst r. by exists t, (Raise x).
Qed.

(** The characterisation used throughout: a call of [decide] returns the
    value [decision], keeps [self], and only adds cells to the heap. *)
Lemma call_decide_run (s : state) (evidence : loc) (e : gmap string Z) :
  heap s !! evidence = Some e →
  ∃ t, call_decide evidence s
       = (decision (self s) e, State (self s) (heap s ++ t)).
Proof.
  destruct s as [eng h]. cbn [heap self]. intros Hev.
  unfold call_decide, decide, decision, utility_index.
  rewrite bind_run. cbn [get_self self]. cbv zeta.
  rewrite bind_run. cbn [get_self self].
  rewrite bind_run, or_raise_run.
  destruct (head (keys (util_map eng))) as [key|];
    cbn [required mbind result_bind]; [|exists []; by rewrite app_nil_r].
  rewrite bind_run, or_raise_run.
  destruct (index key (names (data eng))) as [util_index|];
    cbn [required mbind result_bind]; [|exists []; by rewrite app_nil_r].
  rewrite bind_run.
  destruct (select_run eng evidence e util_index
              (product (dec_vars_permutations eng)) h None None neg_infinity Hev I)
    as (t & r & -> & Hr).
  exists t.
  destruct (select eng util_index e (None, neg_infinity) _) as [[bd bu]|x];
    cbn [mbind result_bind].
  - destruct Hr as (bl' & -> & Hbest). cbn [mret M_ret fst snd] in *.
    destruct bl' as [l|], bd as [d|]; cbn in Hbest; try done.
    cbn. by rewrite Hbest.
  - by subst r.
Qed.

Lemma call_decide_fst (s : state) (evidence : loc) (e : gmap string Z) :
  heap s !! evidence = Some e →
  (call_decide evidence s).1 = decision (self s) e.
Proof.
  intros Hev. destruct (call_decide_run s evidence e Hev) as [t ->]. done.
Qed.

Lemma Ok_inj {A} (a b : A) : Ok a = Ok b → a = b.
Proof. by intros [= ->]. Qed.

(** ** The utility parent and its table *)

Lemma index_lookup {A} `{EqDecision A} (x : A) (t : list A) (i : nat) :
  index x t = Some i → t !! i = Some x.
Proof.
  revert i. induction t as [|y t IH]; intros i; cbn; [done|].
  destruct (base.decide (y = x)) as [->|]; [by intros [= <-]|].
  destruct (index x t) as [j|]; [|done]. intros [= <-]. by apply IH.
Qed.

(** The variable found on line 56 is the first key of the utility map, and
    the table read on line 67 is the one stored under that key. *)
Lemma utility_index_Ok (eng : AdEngine) (util_index : nat) :
  utility_index eng = Ok util_index →
  ∃ key table rest,
    util_map eng = (key, table) :: rest
    ∧ index key (names (data eng)) = Some util_index
    ∧ names (data eng) !! util_index = Some key.
Proof.
  unfold utility_index.
  destruct (util_map eng) as [|[key table] rest]; [done|].
  cbn. destruct (index key (names (data eng))) as [i|] eqn:Hi; [|done].
  intros [= <-]. exists key, table, rest. split; [done|]. split; [done|].
  by apply index_lookup.
Qed.

Lemma utility_parent_index (eng : AdEngine) (key : string)
    (table : gmap Z number) (util_index : nat) :
  utility_parent eng key table util_index → utility_index eng = Ok util_index.
Proof.
  intros (rest & Hum & Hidx). unfold utility_index. rewrite Hum. cbn.
  by rewrite Hidx.
Qed.

Lemma utility_parent_unique (eng : AdEngine) (key key' : string)
    (table table' : gmap Z number) (util_index util_index' : nat) :
  utility_parent eng key table util_index →
  utility_parent eng key' table' util_index' →
  key = key' ∧ table = table' ∧ util_index = util_index'.
Proof.
  intros (rest & Hum & Hidx) (rest' & Hum' & Hidx').
  rewrite Hum in Hum'. injection Hum' as <- <- <-.
  rewrite Hidx in Hidx'. by injection Hidx' as <-.
Qed.

Lemma weigh_first_key (eng : AdEngine) (util_index : nat) (key : string)
    (table : gmap Z number) (rest : list (string * gmap Z number))
    (util : list (Z * float)) (possible_util : float) (val : Z) :
  util_map eng = (key, table) :: rest →
  names (data eng) !! util_index = Some key →
  weigh eng util_index util possible_util val
  = weigh_table table util possible_util val.
Proof.
  intros Hum Hname. unfold weigh, weigh_table. rewrite Hum, Hname.
  destruct (getitem val util); cbn; [|done].
  by rewrite decide_True.
Qed.

Lemma fold_result_ext {A B} (f g : B → A → result B) (acc : B) (xs : list A) :
  (∀ b a, a ∈ xs → f b a = g b a) →
  fold_result f acc xs = fold_result g acc xs.
Proof.
  revert acc. induction xs as [|x xs IH]; intros acc Hfg; [done|].
  cbn. rewrite Hfg by left.
  destruct (g acc x); cbn; [|done]. apply IH. intros. apply Hfg. by right.
Qed.

Lemma utility_first_key (eng : AdEngine) (util_index : nat) (key : string)
    (table : gmap Z number) (rest : list (string * gmap Z number))
    (query : gmap string Z) :
  util_map eng = (key, table) :: rest →
  names (data eng) !! util_index = Some key →
  utility eng util_index query
  = (probs ← network eng query;
     util_prob ← required IndexError (probs !! util_index);
     params ← required AttributeError (parameters util_prob);
     accumulate table params).
Proof.
  intros Hum Hname. unfold utility, accumulate.
  destruct (network eng query) as [probs|]; cbn; [|done].
  destruct (probs !! util_index) as [util_prob|]; cbn; [|done].
  destruct (parameters util_prob) as [params|]; cbn; [|done].
  apply fold_result_ext. intros b util _.
  apply fold_result_ext. intros b' val _.
  by eapply weigh_first_key.
Qed.

(** The number computed for a query is the utility of the table of the
    utility parent under the distribution that the network returns. *)
Lemma utility_table_utility (eng : AdEngine) (key : string)
    (table : gmap Z number) (util_index : nat) (query : gmap string Z)
    (u : float) :
  utility_parent eng key table util_index →
  utility eng util_index query = Ok u ↔
  table_utility eng util_index table query u.
Proof.
  intros (rest & Hum & Hidx).
  rewrite (utility_first_key _ _ _ _ _ _ Hum (index_lookup _ _ _ Hidx)).
  unfold table_utility. split.
  - destruct (network eng query) as [probs|]; cbn; [|done].
    destruct (probs !! util_index) as [[params|v]|] eqn:Hup; cbn; try done.
    intros Hu. by exists probs, params.
  - intros (probs & params & -> & Hup & Hu). cbn. by rewrite Hup.
Qed.

Lemma mul_score_Raise (p : float) (score : number) (x : exn) :
  mul_score p score = Raise x →
  x = OverflowError ∧ ∃ z, score = Int z ∧ to_float z = Raise OverflowError.
Proof.
  destruct score as [z|f]; cbn [mul_score]; [|done].
  destruct (to_float z) as [f|x'] eqn:Hz; cbn [mbind result_bind]; [done|].
  intros [= <-].
  assert (x' = OverflowError) as ->.
  { unfold to_float in Hz.
    destruct (binary_normalize prec emax z 0 false); by try injection Hz as <-. }
  split; [done|]. by exists z.
Qed.

Section Table.

Context (table : gmap Z number).

Lemma weigh_table_Raise (util : list (Z * float)) (acc : float) (val : Z)
    (x : exn) :
  weigh_table table util acc val = Raise x →
  x = KeyError
  ∨ x = OverflowError
    ∧ ∃ z, table !! val = Some (Int z) ∧ to_float z = Raise OverflowError.
Proof.
  unfold weigh_table.
  destruct (getitem val util) as [p|]; cbn; [|intros [= <-]; by left].
  destruct (table !! val) as [score|]; cbn; [|intros [= <-]; by left].
  destruct (mul_score p score) as [y|x'] eqn:Hm; cbn; [done|].
  intros [= <-]. right.
  apply mul_score_Raise in Hm as (-> & z & -> & Hz). split; [done|].
  by exists z.
Qed.

Lemma weigh_table_KeyError (util : list (Z * float)) (acc : float) (val : Z)
    (x : exn) :
  convertible table →
  weigh_table table util acc val = Raise x → x = KeyError.
Proof.
  intros Hconv [->|(_ & z & Hz & Hover)]%weigh_table_Raise; [done|].
  destruct (Hconv _ _ Hz) as [f Hf]. by rewrite Hf in Hover.
Qed.

Lemma weigh_table_missing (util : list (Z * float)) (val : Z)
    (vals : list Z) :
  val ∈ vals → table !! val = None →
  ∀ acc, fails (fold_result (weigh_table table util) acc vals).
Proof.
  intros Hin Hnone. induction vals as [|v vals IH]; intros acc.
  - by apply elem_of_nil in Hin.
  - cbn [fold_result].
    destruct (weigh_table table util acc v) as [acc'|x] eqn:Hw;
      cbn [mbind result_bind]; [|by exists x].
    apply elem_of_cons in Hin as [->|Hin]; [|by apply IH].
    unfold weigh_table in Hw. rewrite Hnone in Hw.
    by destruct (getitem v util).
Qed.

Lemma weigh_table_fold_KeyError (util : list (Z * float)) (vals : list Z)
    (acc : float) (x : exn) :
  convertible table →
  fold_result (weigh_table table util) acc vals = Raise x → x = KeyError.
Proof.
  intros Hconv. revert acc. induction vals as [|v vals IH]; intros acc; [done|].
  cbn [fold_result].
  destruct (weigh_table table util acc v) as [acc'|x'] eqn:Hw;
    cbn [mbind result_bind]; [apply IH|].
  intros [= <-]. by eapply weigh_table_KeyError.
Qed.

(** A value without a score stops the accumulation. *)
Lemma accumulate_missing (params : list (list (Z * float)))
    (util : list (Z * float)) (val : Z) :
  util ∈ params → val ∈ keys util → table !! val = None →
  fails (accumulate table params).
Proof.
  intros Hutil Hval Hnone. unfold accumulate. generalize 0%float.
  induction params as [|util' params IH]; intros acc.
  - by apply elem_of_nil in Hutil.
  - cbn [fold_result].
    destruct (fold_result (weigh_table table util') acc (keys util'))
      as [acc'|x] eqn:Hin; cbn [mbind result_bind]; [|by exists x].
    apply elem_of_cons in Hutil as [->|Hutil]; [|by apply IH].
    destruct (weigh_table_missing util' _ _ Hval Hnone acc) as [x Hx].
    by rewrite Hx in Hin.
Qed.

(** The exceptions of the accumulation are [KeyError] and, for an [int]
    score beyond the floats, [OverflowError]. *)
Lemma accumulate_KeyError (params : list (list (Z * float))) (x : exn) :
  convertible table →
  accumulate table params = Raise x → x = KeyError.
Proof.
  intros Hconv. unfold accumulate. generalize 0%float.
  induction params as [|util params IH]; intros acc; [done|].
  cbn [fold_result].
  destruct (fold_result (weigh_table table util) acc (keys util))
    as [acc'|x'] eqn:Hin; cbn [mbind result_bind]; [apply IH|].
  intros [= <-]. by eapply weigh_table_fold_KeyError.
Qed.

End Table.

(** A score for a value that no distribution lists is never read. *)
Lemma accumulate_insert (table : gmap Z number)
    (params : list (list (Z * float))) (v : Z) (q : number) :
  (∀ util, util ∈ params → v ∉ keys util) →
  accumulate (<[v := q]> table) params = accumulate table params.
Proof.
  intros Hv. unfold accumulate.
  apply fold_result_ext. intros acc util Hutil.
  apply fold_result_ext. intros acc' val Hval.
  unfold weigh_table. rewrite lookup_insert_ne; [done|].
  intros ->. by apply (Hv util).
Qed.

(** ** The comparisons of floats *)

Lemma SFcompare_rank (x y : spec_float) :
  SFcompare x y = match rank x, rank y with
                  | Some a, Some b => Some (lex a b)
                  | _, _ => None
                  end.
Proof.
  destruct x as [[]|[]| |[] mx ex], y as [[]|[]| |[] my ey]; try reflexivity.
  cbn [SFcompare rank]. unfold lex. cbn [fst snd].
  change (-1 ?= -1) with Eq. cbv iota.
  rewrite Z.compare_opp, (Z.compare_antisym ex ey).
  destruct (ex ?= ey); reflexivity.
Qed.

Lemma lex_Lt (a b : Z * Z * Z) :
  lex a b = Lt ↔
  a.1.1 < b.1.1 ∨ a.1.1 = b.1.1 ∧ (a.1.2 < b.1.2 ∨ a.1.2 = b.1.2 ∧ a.2 < b.2).
Proof.
  unfold lex.
  destruct (Z.compare_spec a.1.1 b.1.1), (Z.compare_spec a.1.2 b.1.2),
    (Z.compare_spec a.2 b.2); split; try done; lia.
Qed.

Lemma lex_Gt (a b : Z * Z * Z) : lex a b = Gt ↔ lex b a = Lt.
Proof.
  rewrite lex_Lt. unfold lex.
  destruct (Z.compare_spec a.1.1 b.1.1), (Z.compare_spec a.1.2 b.1.2),
    (Z.compare_spec a.2 b.2); split; try done; lia.
Qed.

Lemma ltb_rank (x y : float) :
  (x <? y)%float = true ↔
  ∃ a b, rank (Prim2SF x) = Some a ∧ rank (Prim2SF y) = Some b ∧ lex a b = Lt.
Proof.
  rewrite ltb_spec. unfold SFltb. rewrite SFcompare_rank.
  destruct (rank (Prim2SF x)) as [a|], (rank (Prim2SF y)) as [b|];
    try (split; [done|by intros (? & ? & ? & ? & ?)]).
  split.
  - destruct (lex a b) eqn:H; try done. by exists a, b.
  - intros (? & ? & [= <-] & [= <-] & ->). done.
Qed.

Lemma leb_rank (x y : float) :
  (x <=? y)%float = true ↔
  ∃ a b, rank (Prim2SF x) = Some a ∧ rank (Prim2SF y) = Some b ∧ lex b a ≠ Lt.
Proof.
  rewrite leb_spec. unfold SFleb. rewrite SFcompare_rank.
  destruct (rank (Prim2SF x)) as [a|], (rank (Prim2SF y)) as [b|];
    try (split; [done|by intros (? & ? & ? & ? & ?)]).
  split.
  - destruct (lex a b) eqn:H; try done; exists a, b;
      (split; [done|]); (split; [done|]); by rewrite <- lex_Gt, H.
  - intros (? & ? & [= <-] & [= <-] & H). rewrite <- lex_Gt in H.
    by destruct (lex a b).
Qed.

(** [<] is transitive. *)
Lemma ltb_trans (x y z : float) :
  (x <? y)%float = true → (y <? z)%float = true → (x <? z)%float = true.
Proof.
  rewrite !ltb_rank.
  intros (a & b & Ha & Hb & Hab) (b' & c & Hb' & Hc & Hbc).
  rewrite Hb in Hb'. injection Hb' as <-. exists a, c.
  split; [done|]. split; [done|]. rewrite lex_Lt in *. lia.
Qed.

Lemma ltb_leb_trans (x y z : float) :
  (x <? y)%float = true → (y <=? z)%float = true → (x <? z)%float = true.
Proof.
  rewrite !ltb_rank, leb_rank.
  intros (a & b & Ha & Hb & Hab) (b' & c & Hb' & Hc & Hbc).
  rewrite Hb in Hb'. injection Hb' as <-. exists a, c.
  split; [done|]. split; [done|]. rewrite lex_Lt in *. lia.
Qed.

Lemma ltb_leb (x y : float) :
  (x <? y)%float = true → (x <=? y)%float = true.
Proof.
  rewrite ltb_rank, leb_rank. intros (a & b & Ha & Hb & Hab).
  exists a, b. split; [done|]. split; [done|]. rewrite lex_Lt in *. lia.
Qed.

Lemma ltb_not_leb (x y : float) :
  (x <? y)%float = true → (y <=? x)%float = false.
Proof.
  intros Hlt. apply not_true_is_false. revert Hlt.
  rewrite ltb_rank, leb_rank.
  intros (a & b & Ha & Hb & Hab) (b' & a' & Hb' & Ha' & Hba).
  rewrite Hb in Hb'. injection Hb' as <-.
  rewrite Ha in Ha'. by injection Ha' as <-.
Qed.

Lemma not_leb_not_ltb (x y : float) :
  (x <=? y)%float = false → (x <? y)%float = false.
Proof.
  intros Hle. apply not_true_is_false. intros Hlt%ltb_leb.
  by rewrite Hlt in Hle.
Qed.

Lemma ltb_irrefl (x : float) : (x <? x)%float = false.
Proof.
  apply not_true_is_false. rewrite ltb_rank.
  intros (a & b & Ha & Hb & Hab). rewrite Ha in Hb. injection Hb as <-.
  rewrite lex_Lt in Hab. lia.
Qed.

(** ** The arg-max search *)

Section Search.

Context (eng : AdEngine) (util_index : nat) (e : gmap string Z).

(** The loop either keeps what it started from, no candidate being greater
    than [bu], or ends on the first maximal candidate. *)
Lemma select_first_maximal (combos : list (list Z)) :
  ∀ (bd : option (gmap string Z)) (bu : float) r,
  select eng util_index e (bd, bu) combos = Ok r →
  (r = (bd, bu)
   ∧ Forall (has_utility eng util_index e (λ u', (bu <? u')%float = false))
            combos)
  ∨ (∃ a u, r = (Some a, u)
       ∧ (bu <? u)%float = true
       ∧ first_maximal eng util_index e combos a u).
Proof.
  induction combos as [|combo combos IH]; intros bd bu r; cbn [select].
  - intros [= <-]. left. by split.
  - destruct (candidate eng util_index e combo) as [[a0 u0]|x] eqn:Hc;
      cbn [mbind result_bind]; [|done].
    unfold choose. cbn [fst snd].
    destruct (bu <? u0)%float eqn:Hgt; intros Hsel; apply IH in Hsel.
    + right. destruct Hsel as [[-> Hall]|(a & u & -> & Hu & Hmax)].
      * exists a0, u0. split; [done|]. split; [done|].
        by exists [], combo, combos.
      * exists a, u. split; [done|].
        split; [by apply ltb_trans with u0|].
        destruct Hmax as (before & c & after & -> & Hcand & Hbefore & Hafter).
        exists (combo :: before), c, after. repeat split; try done.
        constructor; [|done]. exists a0, u0. split; [done|].
        by apply ltb_not_leb.
    + destruct Hsel as [[-> Hall]|(a & u & -> & Hu & Hmax)].
      * left. split; [done|]. constructor; [|done]. by exists a0, u0.
      * right. exists a, u. split; [done|]. split; [done|].
        destruct Hmax as (before & c & after & -> & Hcand & Hbefore & Hafter).
        exists (combo :: before), c, after. repeat split; try done.
        constructor; [|done]. exists a0, u0. split; [done|].
        apply not_true_is_false. intros Hle.
        by rewrite (ltb_leb_trans _ _ _ Hu Hle) in Hgt.
Qed.

(** When no candidate is greater than [bu], the loop keeps what it started
    from. *)
Lemma select_none_greater (combos : list (list Z))
    (bd : option (gmap string Z)) (bu : float) :
  Forall (has_utility eng util_index e (λ u', (bu <? u')%float = false))
         combos →
  select eng util_index e (bd, bu) combos = Ok (bd, bu).
Proof.
  induction 1 as [|c combos (a & u & Hc & Hu) _ IH]; cbn [select]; [done|].
  rewrite Hc. cbn [mbind result_bind]. unfold choose. cbn [fst snd].
  by rewrite Hu.
Qed.

Lemma select_app (before after : list (list Z)) :
  ∀ best,
  select eng util_index e best (before ++ after)
  = (best' ← select eng util_index e best before;
     select eng util_index e best' after).
Proof.
  induction before as [|c before IH]; intros best; [done|].
  cbn [app select].
  destruct (candidate eng util_index e c); cbn [mbind result_bind]; [|done].
  apply IH.
Qed.

End Search.

Lemma select_ext (eng eng' : AdEngine) (util_index : nat)
    (e : gmap string Z) (combos : list (list Z)) :
  (∀ combo, candidate eng' util_index e combo
            = candidate eng util_index e combo) →
  ∀ best, select eng' util_index e best combos
          = select eng util_index e best combos.
Proof.
  intros Hc. induction combos as [|combo combos IH]; intros best; [done|].
  cbn [select]. rewrite Hc.
  destruct (candidate eng util_index e combo); cbn [mbind result_bind]; [|done].
  apply IH.
Qed.

(** A returned assignment is the first maximal one of the enumeration. *)
Lemma decision_first_maximal (eng : AdEngine) (e a : gmap string Z) :
  decision eng e = Ok (Some a) →
  ∃ util_index u,
    utility_index eng = Ok util_index
    ∧ (neg_infinity <? u)%float = true
    ∧ first_maximal eng util_index e (product (dec_vars_permutations eng)) a u.
Proof.
  unfold decision.
  destruct (utility_index eng) as [util_index|]; cbn [mbind result_bind]; [|done].
  destruct (select eng util_index e (None, neg_infinity) _) as [r|] eqn:Hsel;
    cbn [mbind result_bind]; [|done].
  intros [= Hr]. exists util_index.
  apply select_first_maximal in Hsel as [[-> _]|(a' & u & -> & Hu & Hmax)];
    [done|].
  cbn in Hr. injection Hr as ->. by exists u.
Qed.

(** [None] is returned exactly when the utility parent is found and every
    candidate is evaluated to a utility that is not greater than
    [-math.inf]. *)
Lemma decision_None (eng : AdEngine) (e : gmap string Z) :
  decision eng e = Ok None ↔
  ∃ util_index,
    utility_index eng = Ok util_index
    ∧ Forall (has_utility eng util_index e
                (λ u, (neg_infinity <? u)%float = false))
             (product (dec_vars_permutations eng)).
Proof.
  unfold decision. split.
  - destruct (utility_index eng) as [util_index|]; cbn [mbind result_bind];
      [|done].
    destruct (select eng util_index e (None, neg_infinity) _) as [r|] eqn:Hsel;
      cbn [mbind result_bind]; [|done].
    intros [= Hr]. exists util_index. split; [done|].
    by apply select_first_maximal in Hsel as [[-> Hall]|(a' & u & -> & _ & _)].
  - intros (util_index & -> & Hall). cbn [mbind result_bind].
    by rewrite (select_none_greater _ _ _ _ _ _ Hall).
Qed.

(** ** The utility that is compared *)

Lemma candidate_scored (eng : AdEngine) (key : string) (table : gmap Z number)
    (util_index : nat) (e : gmap string Z) (combo : list Z)
    (a : gmap string Z) (u : float) :
  utility_parent eng key table util_index →
  candidate eng util_index e combo = Ok (a, u) ↔
  scored eng util_index table e combo a u.
Proof.
  intros Hup. unfold candidate, scored.
  rewrite <- (utility_table_utility _ _ _ _ _ _ Hup). split.
  - destruct (assignment eng combo) as [d|]; cbn [mbind result_bind]; [|done].
    destruct (utility eng util_index (merged e d)) as [u0|] eqn:Hu;
      cbn [mbind result_bind]; [|done].
    by intros [= <- <-].
  - intros [-> Hu]. cbn [mbind result_bind]. by rewrite Hu.
Qed.

Lemma has_utility_scored (eng : AdEngine) (key : string)
    (table : gmap Z number) (util_index : nat) (e : gmap string Z)
    (R : float → Prop) (combos : list (list Z)) :
  utility_parent eng key table util_index →
  Forall (has_utility eng util_index e R) combos →
  Forall (λ c, ∃ a' u', scored eng util_index table e c a' u' ∧ R u') combos.
Proof.
  intros Hup Hall. eapply Forall_impl; [exact Hall|].
  intros c (a' & u' & Hc & HR). exists a', u'. split; [|done].
  by eapply candidate_scored.
Qed.

(** What [decide] returns is the first best assignment of its enumeration. *)
Lemma decision_first_best (eng : AdEngine) (e a : gmap string Z) :
  decision eng e = Ok (Some a) →
  first_best eng e (product (dec_vars_permutations eng)) a.
Proof.
  intros Hd.
  apply decision_first_maximal in Hd
    as (util_index & u & Hui & Hu & before & combo & after
        & Hsplit & Hc & Hb & Ha).
  apply utility_index_Ok in Hui as (key & table & rest & Hum & Hidx & _).
  assert (utility_parent eng key table util_index) as Hup by by exists rest.
  exists key, table, util_index. split; [done|].
  exists before, combo, after, u. split; [done|].
  split; [by eapply candidate_scored|]. split; [done|].
  split; by eapply (has_utility_scored _ _ _ _ _ _ _ Hup).
Qed.

Lemma scored_unique (eng : AdEngine) (util_index : nat)
    (table : gmap Z number) (e : gmap string Z) (combo : list Z)
    (a1 a2 : gmap string Z) (u1 u2 : float) :
  scored eng util_index table e combo a1 u1 →
  scored eng util_index table e combo a2 u2 →
  a1 = a2 ∧ u1 = u2.
Proof.
  intros [Ha1 (probs & params & Hnet & Hup & Hu)]
         [Ha2 (probs' & params' & Hnet' & Hup' & Hu')].
  rewrite Ha1 in Ha2. injection Ha2 as <-. split; [done|].
  rewrite Hnet in Hnet'. injection Hnet' as <-.
  rewrite Hup in Hup'. injection Hup' as <-.
  rewrite Hu in Hu'. by injection Hu' as <-.
Qed.

(** ** The candidate domains built by the constructor *)

Lemma elem_of_insert_unique (x y : Z) (l : list Z) :
  y ∈ insert_unique x l ↔ y = x ∨ y ∈ l.
Proof.
  induction l as [|z l IH]; cbn.
  - rewrite elem_of_cons, elem_of_nil. tauto.
  - destruct (Z.ltb_spec x z); [by rewrite (elem_of_cons _ y x)|].
    destruct (Z.eqb_spec x z) as [->|]; rewrite !elem_of_cons; [tauto|].
    rewrite IH. tauto.
Qed.

Lemma insert_unique_sorted (x : Z) (l : list Z) :
  StronglySorted Z.lt l → StronglySorted Z.lt (insert_unique x l).
Proof.
  induction 1 as [|z l Hl IH Hz]; cbn.
  - by repeat constructor.
  - destruct (Z.ltb_spec x z) as [Hlt|Hge].
    + constructor; [by constructor|]. constructor; [done|].
      eapply Forall_impl; [exact Hz|]. intros; cbn in *; lia.
    + destruct (Z.eqb_spec x z) as [->|Hne]; [by constructor|].
      constructor; [done|].
      apply Forall_forall. intros y Hy.
      apply elem_of_insert_unique in Hy as [->|Hy]; [lia|].
      by eapply Forall_forall in Hz.
Qed.

Lemma np_unique_ascending (col : list Z) : ascending_values col (np_unique col).
Proof.
  split.
  - induction col as [|x col IH]; cbn; [constructor|].
    by apply insert_unique_sorted.
  - intros y. induction col as [|x col IH]; cbn; [done|].
    rewrite elem_of_insert_unique, elem_of_cons, IH. tauto.
Qed.

Lemma comprehension_Forall2 {A B} (f : A → result B) (xs : list A) (ys : list B) :
  comprehension f xs = Ok ys → Forall2 (λ x y, f x = Ok y) xs ys.
Proof.
  revert ys. induction xs as [|x xs IH]; intros ys; cbn.
  - intros [= <-]. constructor.
  - destruct (f x) as [y|] eqn:Hx; [|done].
    destruct (comprehension f xs) as [ys'|]; [|done].
    intros [= <-]. constructor; auto.
Qed.

(** The engine that the constructor builds. *)
Lemma init_Ok (data0 : dataset) (net : gmap string Z → result (list entry))
    (dv : list string) (um : list (string * gmap Z number)) (eng : AdEngine) :
  init data0 net dv um = Ok eng →
  ∃ perms, eng = Engine dv um data0 net perms
    ∧ Forall2 (λ d pool, ∃ col, column data0 d = Ok col
                                ∧ ascending_values col pool) dv perms.
Proof.
  unfold init.
  destruct (comprehension _ dv) as [perms|] eqn:Hperms; [|done].
  intros [= <-]. exists perms. split; [done|].
  apply comprehension_Forall2 in Hperms.
  eapply Forall2_impl; [exact Hperms|].
  intros d pool. cbn. destruct (column data0 d) as [col|]; [|done].
  intros [= <-]. exists col. split; [done|]. apply np_unique_ascending.
Qed.

Lemma init_with_util_map (data0 : dataset)
    (net : gmap string Z → result (list entry)) (dv : list string)
    (um um' : list (string * gmap Z number)) (eng : AdEngine) :
  init data0 net dv um = Ok eng →
  init data0 net dv um' = Ok (with_util_map eng um').
Proof.
  unfold init. destruct (comprehension _ dv); [|done]. by intros [= <-].
Qed.

(** ** Changing the utility map *)

Lemma fill_with_util_map (eng : AdEngine) (um : list (string * gmap Z number))
    (combo : list Z) (ixs : list nat) (d : gmap string Z) :
  fill (with_util_map eng um) combo ixs d = fill eng combo ixs d.
Proof.
  revert d. induction ixs as [|i ixs IH]; intros d; [done|].
  cbn [fill with_util_map dec_vars].
  destruct (combo !! i), (dec_vars eng !! i); auto.
Qed.

(** Two utility maps with the same first key give the same decision as soon
    as they give the same expected utilities. *)
Lemma decision_with_util_map (eng : AdEngine) (e : gmap string Z)
    (key : string) (table table' : gmap Z number)
    (rest rest' : list (string * gmap Z number)) :
  util_map eng = (key, table) :: rest →
  (∀ util_index probs params query,
     index key (names (data eng)) = Some util_index →
     network eng query = Ok probs →
     probs !! util_index = Some (Distribution params) →
     accumulate table' params = accumulate table params) →
  decision (with_util_map eng ((key, table') :: rest')) e = decision eng e.
Proof.
  intros Hum Hacc. unfold decision, utility_index.
  rewrite Hum. cbn.
  destruct (index key (names (data eng))) as [util_index|] eqn:Hidx;
    cbn [required mbind result_bind]; [|done].
  rewrite (select_ext eng); [done|].
  intros combo. unfold candidate, assignment.
  rewrite fill_with_util_map. cbn [with_util_map dec_vars_permutations].
  destruct (fill eng combo _ ∅) as [[[]|x] d]; cbn [mbind result_bind]; [|done].
  rewrite (utility_first_key (with_util_map _ _) _ key table' rest');
    [|done|by apply index_lookup].
  rewrite (utility_first_key eng _ key table rest);
    [|done|by apply index_lookup].
  cbn [with_util_map network].
  destruct (network eng (merged e d)) as [probs|] eqn:Hnet;
    cbn [mbind result_bind]; [|done].
  destruct (probs !! util_index) as [[params|v]|] eqn:Hup; cbn; try done.
  by rewrite (Hacc _ _ _ _ eq_refl Hnet Hup).
Qed.

(** ** Columns and the enumeration *)

Lemma getitem_None {K A} `{EqDecision K} (k : K) (d : list (K * A)) :
  getitem k d = None ↔ k ∉ keys d.
Proof.
  induction d as [|[k' a] d IH]; cbn.
  - split; [intros _; apply not_elem_of_nil|done].
  - rewrite not_elem_of_cons.
    destruct (base.decide (k' = k)) as [->|Hne]; [by split; [|intros []]|].
    rewrite IH. split; [by split|by intros []].
Qed.

Lemma column_Ok (data0 : dataset) (d : string) :
  (∃ col, column data0 d = Ok col) ↔ d ∈ names data0.
Proof.
  unfold column, names.
  destruct (getitem d (fields data0)) as [col|] eqn:Hd.
  - split; [intros _|by exists col].
    destruct (base.decide (d ∈ keys (fields data0))) as [|Hn]; [done|].
    apply getitem_None in Hn. by rewrite Hn in Hd.
  - apply getitem_None in Hd. split; [by intros [? [=]]|done].
Qed.

Lemma column_Raise (data0 : dataset) (d : string) (x : exn) :
  column data0 d = Raise x → x = ValueError.
Proof. unfold column. destruct (getitem _ _); [done|by intros [= <-]]. Qed.


Lemma elem_of_product (pools : list (list Z)) (combo : list Z) :
  combo ∈ product pools ↔ Forall2 (λ x pool, x ∈ pool) combo pools.
Proof.
  revert combo. induction pools as [|pool pools IH]; intros combo; cbn.
  - rewrite list_elem_of_singleton. split; [intros ->; constructor|].
    by intros ->%Forall2_nil_inv_r.
  - rewrite list_elem_of_bind. split.
    + intros (x & (c & -> & Hc)%list_elem_of_fmap & Hx).
      constructor; [done|]. by apply IH.
    + intros (x & c & Hx & Hc & ->)%Forall2_cons_inv_r.
      exists x. split; [|done]. apply list_elem_of_fmap.
      exists c. split; [done|]. by apply IH.
Qed.

Lemma NoDup_product (pools : list (list Z)) :
  Forall NoDup pools → NoDup (product pools).
Proof.
  induction 1 as [|pool pools Hpool _ IH]; cbn.
  - apply NoDup_singleton.
  - induction Hpool as [|x pool Hx _ IHpool]; cbn; [constructor|].
    apply NoDup_app. split; [|split; [|done]].
    + apply (NoDup_fmap_2 _), IH.
    + intros c (c' & -> & _)%list_elem_of_fmap
        (y & (c'' & [= <- _] & _)%list_elem_of_fmap & Hy)%list_elem_of_bind.
      done.
Qed.

Lemma product_nil (pools : list (list Z)) :
  product pools = [] ↔ [] ∈ pools.
Proof.
  induction pools as [|pool pools IH]; cbn.
  - split; [done|]. by intros ?%elem_of_nil.
  - rewrite elem_of_cons, <- IH. split.
    + destruct pool as [|x pool]; [by left|]. cbn.
      intros [Hnil _]%app_eq_nil. right.
      by apply fmap_nil_inv in Hnil.
    + intros [<- | ->]; [done|]. induction pool as [|x pool IHp]; [done|].
      cbn. exact IHp.
Qed.

Lemma ascending_NoDup (col pool : list Z) :
  ascending_values col pool → NoDup pool.
Proof.
  intros [Hsorted _]. induction Hsorted as [|x pool _ IH Hx]; constructor.
  - intros Hin. eapply Forall_forall in Hx; [|exact Hin]. lia.
  - done.
Qed.


(** ** The assignment of a combination *)

Lemma fill_Ok_lookup (eng : AdEngine) (combo : list Z) (ixs : list nat) :
  ∀ d d', fill eng combo ixs d = (Ok tt, d') →
  ∀ k v, d' !! k = Some v →
    d !! k = Some v
    ∨ ∃ i, i ∈ ixs ∧ dec_vars eng !! i = Some k ∧ combo !! i = Some v.
Proof.
  induction ixs as [|i ixs IH]; intros d d'; cbn [fill].
  - intros [= <-] k v Hk. by left.
  - destruct (combo !! i) as [x|] eqn:Hx; [|done].
    destruct (dec_vars eng !! i) as [name|] eqn:Hname; [|done].
    intros Hfill k v Hk.
    destruct (IH _ _ Hfill k v Hk) as [Hd|(j & Hj & ? & ?)].
    + apply lookup_insert_Some in Hd as [[<- <-]|[_ Hd]]; [|by left].
      right. exists i. split; [by left|done].
    + right. exists j. split; [by right|done].
Qed.

Lemma fill_Ok_dom (eng : AdEngine) (combo : list Z) (ixs : list nat) :
  ∀ d d', fill eng combo ixs d = (Ok tt, d') →
  ∀ k, is_Some (d !! k) ∨ (∃ i, i ∈ ixs ∧ dec_vars eng !! i = Some k) →
       is_Some (d' !! k).
Proof.
  induction ixs as [|i ixs IH]; intros d d'; cbn [fill].
  - intros [= <-] k [Hk|(i & Hi%elem_of_nil & _)]; done.
  - destruct (combo !! i) as [x|] eqn:Hx; [|done].
    destruct (dec_vars eng !! i) as [name|] eqn:Hname; [|done].
    intros Hfill k Hk. apply (IH _ _ Hfill).
    destruct Hk as [Hk|(j & [->|Hj]%elem_of_cons & Hjk)].
    + left. rewrite lookup_insert_is_Some. destruct (base.decide (name = k)); auto.
    + left. rewrite Hname in Hjk. injection Hjk as ->.
      rewrite lookup_insert_is_Some. by left.
    + right. by exists j.
Qed.

Lemma fill_total (eng : AdEngine) (combo : list Z) (ixs : list nat) :
  (∀ i, i ∈ ixs → is_Some (combo !! i) ∧ is_Some (dec_vars eng !! i)) →
  ∀ d, ∃ d', fill eng combo ixs d = (Ok tt, d').
Proof.
  induction ixs as [|i ixs IH]; intros Hixs d; cbn [fill]; [by exists d|].
  destruct (Hixs i) as [[x ->] [name ->]]; [by left|].
  apply IH. intros j Hj. apply Hixs. by right.
Qed.

Lemma assignment_Ok_fill (eng : AdEngine) (combo : list Z) (a : gmap string Z) :
  assignment eng combo = Ok a ↔
  fill eng combo (seq 0 (length (dec_vars_permutations eng))) ∅ = (Ok tt, a).
Proof.
  unfold assignment. destruct (fill eng combo _ ∅) as [[[]|x] d].
  - split; by intros [= ->].
  - split; [done|by intros [=]].
Qed.

(** What the assignment of an enumerated combination holds. *)
Lemma assignment_enumerated (eng : AdEngine) (combo : list Z) :
  length (dec_vars eng) = length (dec_vars_permutations eng) →
  combo ∈ product (dec_vars_permutations eng) →
  ∃ a, assignment eng combo = Ok a
    ∧ (∀ k, is_Some (a !! k) ↔ k ∈ dec_vars eng)
    ∧ ∀ k v, a !! k = Some v →
        ∃ i pool, dec_vars eng !! i = Some k
                  ∧ dec_vars_permutations eng !! i = Some pool ∧ v ∈ pool.
Proof.
  intros Hlen Hcombo%elem_of_product.
  assert (length combo = length (dec_vars_permutations eng)) as Hlen'
    by by eapply Forall2_length.
  destruct (fill_total eng combo (seq 0 (length (dec_vars_permutations eng))))
    with (d := (∅ : gmap string Z)) as [a Ha].
  { intros i [_ Hi]%elem_of_seq. split; apply lookup_lt_is_Some; lia. }
  exists a. split; [by apply assignment_Ok_fill|]. split.
  - intros k. split.
    + intros [v Hv].
      destruct (fill_Ok_lookup _ _ _ _ _ Ha k v Hv) as [Hk|(i & _ & Hi & _)];
        [by rewrite lookup_empty in Hk|].
      by eapply list_elem_of_lookup_2.
    + intros (i & Hi)%list_elem_of_lookup_1.
      apply (fill_Ok_dom _ _ _ _ _ Ha). right. exists i. split; [|done].
      apply elem_of_seq. apply lookup_lt_Some in Hi. lia.
  - intros k v Hv.
    destruct (fill_Ok_lookup _ _ _ _ _ Ha k v Hv) as [Hk|(i & _ & Hi & Hx)];
      [by rewrite lookup_empty in Hk|].
    destruct (Forall2_lookup_l _ _ _ _ _ Hcombo Hx) as (pool & Hpool & Hin).
    by exists i, pool.
Qed.


(** ** Candidates that cannot be evaluated *)

Lemma index_None {A} `{EqDecision A} (x : A) (t : list A) :
  index x t = None ↔ x ∉ t.
Proof.
  induction t as [|y t IH]; cbn.
  - split; [intros _; apply not_elem_of_nil|done].
  - rewrite not_elem_of_cons.
    destruct (base.decide (y = x)) as [->|Hne]; [by split; [|intros []]|].
    destruct (index x t); cbn.
    + split; [done|]. intros [_ Hn]. by apply IH in Hn.
    + split; [|done]. intros _. split; [done|]. by apply IH.
Qed.


Lemma select_all_Ok (eng : AdEngine) (util_index : nat) (e : gmap string Z)
    (combos : list (list Z)) :
  Forall (λ c, ∃ r, candidate eng util_index e c = Ok r) combos →
  ∀ best, ∃ best', select eng util_index e best combos = Ok best'.
Proof.
  induction 1 as [|c combos [r Hr] _ IH]; intros best; cbn [select].
  - by exists best.
  - rewrite Hr. cbn [mbind result_bind]. apply IH.
Qed.

(** The first candidate that cannot be evaluated decides the outcome. *)
Lemma decision_first_failure (eng : AdEngine) (e : gmap string Z)
    (util_index : nat) (before after : list (list Z)) (combo : list Z)
    (x : exn) :
  utility_index eng = Ok util_index →
  product (dec_vars_permutations eng) = before ++ combo :: after →
  Forall (λ c, ∃ r, candidate eng util_index e c = Ok r) before →
  candidate eng util_index e combo = Raise x →
  decision eng e = Raise x.
Proof.
  intros Hui Hprod Hbefore Hc. unfold decision.
  rewrite Hui. cbn [mbind result_bind]. rewrite Hprod, select_app.
  destruct (select_all_Ok _ _ _ _ Hbefore (None, neg_infinity)) as [best ->].
  cbn [mbind result_bind select]. by rewrite Hc.
Qed.


(** ** Changing the network *)

Lemma fill_with_network (eng : AdEngine)
    (net : gmap string Z → result (list entry)) (combo : list Z)
    (ixs : list nat) (d : gmap string Z) :
  fill (with_network eng net) combo ixs d = fill eng combo ixs d.
Proof.
  revert d. induction ixs as [|i ixs IH]; intros d; [done|].
  cbn [fill with_network dec_vars].
  destruct (combo !! i), (dec_vars eng !! i); auto.
Qed.

Lemma select_ext_in (eng eng' : AdEngine) (util_index : nat)
    (e : gmap string Z) (combos : list (list Z)) :
  (∀ combo, combo ∈ combos →
     candidate eng' util_index e combo = candidate eng util_index e combo) →
  ∀ best, select eng' util_index e best combos
          = select eng util_index e best combos.
Proof.
  induction combos as [|combo combos IH]; intros Hc best; [done|].
  cbn [select]. rewrite Hc by left.
  destruct (candidate eng util_index e combo); cbn [mbind result_bind]; [|done].
  apply IH. intros c Hin. apply Hc. by right.
Qed.


(** ** The dictionaries that a call builds *)

Lemma iteration_alloc (eng : AdEngine) (h : list (gmap string Z))
    (evidence : loc) (e : gmap string Z) (util_index : nat)
    (best : option loc * float) (combo : list Z) :
  h !! evidence = Some e →
  ∃ r t, iteration evidence util_index best combo (State eng h)
         = (r, State eng (h ++ t))
    ∧ match r with
      | Ok best' =>
          length t = 2%nat ∧ (best'.1 = best.1 ∨ best'.1 = Some (length h))
      | Raise _ => True
      end.
Proof.
  intros Hev. unfold iteration.
  rewrite bind_run, (candidate_evidence_run _ _ _ _ _ Hev).
  destruct (fill eng combo _ ∅) as [[[]|x] d]; [|by eexists _, _].
  rewrite bind_run.
  rewrite (expected_utility_run _ _ (merged e d)) by apply lookup_after_last.
  cbn [self].
  destruct (utility eng util_index (merged e d)) as [u|x]; [|by eexists _, _].
  exists (if (best.2 <? u)%float then Ok (Some (length h), u) else Ok best),
    [d; merged e d].
  destruct (best.2 <? u)%float; (split; [done|]); split; auto.
Qed.

Lemma foldM_iteration_alloc (eng : AdEngine) (evidence : loc)
    (e : gmap string Z) (util_index : nat) (n : nat)
    (combos : list (list Z)) :
  ∀ (h : list (gmap string Z)) (best : option loc * float),
  h !! evidence = Some e →
  (n ≤ length h)%nat →
  (∀ l, best.1 = Some l → (n ≤ l < length h)%nat) →
  ∃ r t, foldM (iteration evidence util_index) best combos (State eng h)
         = (r, State eng (h ++ t))
    ∧ match r with
      | Ok best' =>
          length t = (2 * length combos)%nat
          ∧ ∀ l, best'.1 = Some l → (n ≤ l < length (h ++ t))%nat
      | Raise _ => True
      end.
Proof.
  induction combos as [|combo combos IH]; intros h best Hev Hn Hbest.
  - exists (Ok best), []. rewrite app_nil_r. by split.
  - cbn [foldM]. rewrite bind_run.
    destruct (iteration_alloc eng h evidence e util_index best combo Hev)
      as (r & t & -> & Hr).
    destruct r as [best'|x]; [|by exists (Raise x), t].
    destruct Hr as [Ht Hbest'].
    destruct (IH (h ++ t) best') as (r' & t' & Hrun & Hr').
    + by apply lookup_app_l_Some.
    + rewrite length_app. lia.
    + intros l Hl. rewrite length_app, Ht.
      destruct Hbest' as [Heq|Heq]; rewrite Heq in Hl.
      * apply Hbest in Hl. lia.
      * injection Hl as <-. lia.
    + exists r', (t ++ t'). rewrite (assoc_L (++)). split; [done|].
      destruct r' as [best''|]; [|done]. destruct Hr' as [Ht' Hfresh].
      split; [rewrite length_app, Ht, Ht'; cbn; lia|done].
Qed.

Lemma decide_alloc (s : state) (evidence : loc) (e : gmap string Z)
    (r : option loc) (s' : state) :
  heap s !! evidence = Some e →
  decide evidence s = (Ok r, s') →
  length (heap s')
  = (length (heap s) + 2 * length (product (dec_vars_permutations (self s))))%nat
  ∧ ∀ l, r = Some l → (length (heap s) ≤ l < length (heap s'))%nat.
Proof.
  destruct s as [eng h]. cbn [heap self]. intros Hev. unfold decide.
  rewrite bind_run. cbn [get_self self]. cbv zeta.
  rewrite bind_run. cbn [get_self self].
  rewrite bind_run, or_raise_run.
  destruct (head (keys (util_map eng))) as [key|]; cbn [required]; [|done].
  rewrite bind_run, or_raise_run.
  destruct (index key (names (data eng))) as [util_index|]; cbn [required];
    [|done].
  rewrite bind_run.
  destruct (foldM_iteration_alloc eng evidence e util_index (length h)
              (product (dec_vars_permutations eng)) h (None, neg_infinity) Hev)
    as (r' & t & -> & Hr'); [done|done|].
  destruct r' as [best|]; [|done].
  intros [= <- <-]. destruct Hr' as [Ht Hfresh]. cbn [heap].
  split; [by rewrite length_app, Ht|done].
Qed.


Lemma ascending_values_unique (col col' pool pool' : list Z) :
  ascending_values col pool → ascending_values col' pool' →
  (∀ x, x ∈ col ↔ x ∈ col') → pool = pool'.
Proof.
  intros Hp Hp' Hsame.
  apply (StronglySorted_unique_strong Z.lt);
    [intros; lia|apply Hp|apply Hp'|].
  apply NoDup_Permutation; [by eapply ascending_NoDup..|].
  intros x. destruct Hp as [_ ->], Hp' as [_ ->]. apply Hsame.
Qed.


(** * The claims *)

(** ** C1: which value the query holds on a shared key *)

(** C1, as stated, fails: with the evidence [{"Ad1": 1}] and the enumerated
    candidate [{"Ad1": 0}], the query dictionary maps [Ad1] to 1. *)
Lemma candidate_takes_precedence_counterexample :
  [0] ∈ product (dec_vars_permutations (self Demo.clash_state))
  ∧ ¬ candidate_takes_precedence Demo.clash_state 0%nat [0].
Proof.
  split; [by left|]. intros H.
  assert (Hq : ({[ "Ad1" := 1 ]} : gmap string Z) !! "Ad1" = Some 0);
    [|by vm_compute in Hq].
  apply (H {[ "Ad1" := 1 ]} 1%nat 2%nat Demo.clash_after {[ "Ad1" := 0 ]}).
  - reflexivity.
  - vm_compute. reflexivity.
  - reflexivity.
  - reflexivity.
  - vm_compute. reflexivity.
  - exists 1. vm_compute. reflexivity.
Qed.

(** C1 (amended): the dictionary handed to the posterior query is a copy of
    the candidate assignment updated with the evidence.  It holds every entry
    of the evidence unchanged, so on a shared key it has the evidence's
    value; the candidate's value is kept only on keys the evidence lacks. *)
Theorem evidence_takes_precedence (s : state) (evidence : loc)
    (e : gmap string Z) (combo : list Z) (actions total_evidence : loc)
    (s' : state) :
  heap s !! evidence = Some e →
  candidate_evidence evidence combo s = (Ok (actions, total_evidence), s') →
  ∃ d q,
    assignment (self s) combo = Ok d
    ∧ heap s' !! actions = Some d
    ∧ heap s' !! total_evidence = Some q
    ∧ (∀ k v, e !! k = Some v → q !! k = Some v)
    ∧ (∀ k, e !! k = None → q !! k = d !! k)
    ∧ ∀ util_index,
        expected_utility util_index total_evidence s'
        = (utility (self s) util_index q, s').
Proof.
  destruct s as [eng h]. cbn [heap self]. intros Hev.
  rewrite (candidate_evidence_run _ _ _ _ _ Hev). unfold assignment.
  destruct (fill eng combo _ ∅) as [[[]|x] d]; [|done].
  intros [= <- <- <-]. exists d, (merged e d). cbn [heap].
  split; [done|]. split; [apply lookup_before_last|].
  split; [apply lookup_after_last|]. unfold merged.
  split; [|split].
  - intros k v Hk. by apply lookup_union_Some_l.
  - intros k Hk. by apply lookup_union_r.
  - intros util_index.
    by rewrite (expected_utility_run _ _ (e ∪ d)) by apply lookup_after_last.
Qed.

Lemma evidence_takes_precedence_witness :
  heap Demo.clash_state !! 0%nat = Some {[ "Ad1" := 1 ]}
  ∧ candidate_evidence 0%nat [0] Demo.clash_state
    = (Ok (1%nat, 2%nat), Demo.clash_after)
  ∧ ∃ d q,
      assignment (self Demo.clash_state) [0] = Ok d
      ∧ heap Demo.clash_after !! 1%nat = Some d
      ∧ heap Demo.clash_after !! 2%nat = Some q
      ∧ (∀ k v, ({[ "Ad1" := 1 ]} : gmap string Z) !! k = Some v →
                q !! k = Some v)
      ∧ (∀ k, ({[ "Ad1" := 1 ]} : gmap string Z) !! k = None →
              q !! k = d !! k)
      ∧ ∀ util_index,
          expected_utility util_index 2%nat Demo.clash_after
          = (utility (self Demo.clash_state) util_index q, Demo.clash_after).
Proof.
  assert (H1 : heap Demo.clash_state !! 0%nat = Some {[ "Ad1" := 1 ]})
    by reflexivity.
  assert (H2 : candidate_evidence 0%nat [0] Demo.clash_state
               = (Ok (1%nat, 2%nat), Demo.clash_after))
    by (vm_compute; reflexivity).
  exact (conj H1 (conj H2
    (evidence_takes_precedence Demo.clash_state 0%nat _ [0] 1%nat 2%nat
       Demo.clash_after H1 H2))).
Defined.

(** ** C2: the returned assignment is optimal *)

(** C2, as stated, fails: with the scores [{0: 10**16, 1: 2 * 10**16, 2: 2}]
    the assignment [{"Ad1": 0}] has the expected utility [10**16] and
    [{"Ad1": 1}] has [10**16 + 1]; both are computed as [1e16], and [decide]
    returns the first. *)
Lemma exactly_optimal_counterexample :
  dec_vars (self Demo.large_state) = ["Ad1"]
  ∧ (call_decide 0%nat Demo.large_state).1 = Ok (Some {[ "Ad1" := 0 ]})
  ∧ expected_utility_of Demo.large_engine ∅ {[ "Ad1" := 0 ]}
      (inject_Z (10 ^ 16))
  ∧ expected_utility_of Demo.large_engine ∅ {[ "Ad1" := 1 ]}
      (inject_Z (10 ^ 16 + 1))
  ∧ ¬ exactly_optimal Demo.large_state 0%nat.
Proof.
  assert ((call_decide 0%nat Demo.large_state).1 = Ok (Some {[ "Ad1" := 0 ]}))
    as Hcall by (vm_compute; reflexivity).
  assert (utility_parent Demo.large_engine "S" Demo.large_table 2) as Hup.
  { exists []. split; [reflexivity|]. vm_compute. reflexivity. }
  assert (expected_utility_of Demo.large_engine ∅ {[ "Ad1" := 1 ]}
            (inject_Z (10 ^ 16 + 1))) as Hone.
  { exists "S", Demo.large_table, 2%nat. eexists _, _. split; [exact Hup|].
    split; [vm_compute; reflexivity|]. split; [reflexivity|].
    eexists. split; [vm_compute; reflexivity|]. vm_compute. reflexivity. }
  split; [done|]. split; [done|]. split; [|split; [done|]].
  - exists "S", Demo.large_table, 2%nat. eexists _, _. split; [exact Hup|].
    split; [vm_compute; reflexivity|]. split; [reflexivity|].
    eexists. split; [vm_compute; reflexivity|]. vm_compute. reflexivity.
  - intros H. destruct (H ∅ {[ "Ad1" := 0 ]} eq_refl Hcall) as (x & Hx & Hall).
    assert (inject_Z (10 ^ 16 + 1) <= x)%Q as Hle.
    { apply (Hall [1] {[ "Ad1" := 1 ]}); [by right; left| |exact Hone].
      vm_compute. reflexivity. }
    destruct Hx as (key & table & i & probs & params
                    & Hup' & Hnet & Hlook & y & Hy & Hxy).
    destruct (utility_parent_unique _ _ _ _ _ _ _ Hup Hup') as (<- & <- & <-).
    assert (network (self Demo.large_state) (merged ∅ {[ "Ad1" := 0 ]})
            = Ok [Observed 0;
                  Distribution [[(0, Demo.half); (1, Demo.half)]];
                  Distribution [[(0, 1%float); (1, 0%float); (2, 0%float)]]])
      as Hnet' by (vm_compute; reflexivity).
    cbn [self Demo.large_state] in Hnet, Hnet'.
    rewrite Hnet' in Hnet. injection Hnet as <-. injection Hlook as <-.
    vm_compute in Hy. injection Hy as <-.
    rewrite Hxy in Hle. vm_compute in Hle. by apply Hle.
Qed.

(** C2 (amended): the utility that [decide] computes for the assignment it
    returns, in binary64 and in the order of the loop, is exceeded by that
    of no assignment of the enumerated product: the comparison of line 68 is
    false of each of them.  (The statement does not need the list of
    decision variables to be non-empty.) *)
Theorem decide_optimal_as_computed (s : state) (evidence : loc)
    (e a : gmap string Z) :
  heap s !! evidence = Some e →
  (call_decide evidence s).1 = Ok (Some a) →
  ∃ key table util_index combo u,
    utility_parent (self s) key table util_index
    ∧ combo ∈ product (dec_vars_permutations (self s))
    ∧ scored (self s) util_index table e combo a u
    ∧ ∀ combo', combo' ∈ product (dec_vars_permutations (self s)) →
        ∃ a' u', scored (self s) util_index table e combo' a' u'
                 ∧ (u <? u')%float = false.
Proof.
  intros Hev Hcall. rewrite (call_decide_fst _ _ _ Hev) in Hcall.
  apply decision_first_best in Hcall
    as (key & table & util_index & Hup & before & combo & after & u
        & Hsplit & Hval & _ & Hb & Ha).
  exists key, table, util_index, combo, u. rewrite Hsplit.
  split; [done|]. split; [apply elem_of_app; right; by left|]. split; [done|].
  intros combo' [Hin|Hin]%elem_of_app.
  - eapply Forall_forall in Hb as (a' & u' & ? & ?); [|exact Hin].
    exists a', u'. split; [done|]. by apply not_leb_not_ltb.
  - apply elem_of_cons in Hin as [->|Hin].
    + exists a, u. split; [done|]. apply ltb_irrefl.
    + by eapply Forall_forall in Ha.
Qed.

Lemma decide_optimal_as_computed_witness :
  heap Demo.demo_state !! 0%nat = Some {[ "G" := 1 ]}
  ∧ (call_decide 0%nat Demo.demo_state).1 = Ok (Some {[ "Ad1" := 1 ]})
  ∧ ∃ key table util_index combo u,
      utility_parent (self Demo.demo_state) key table util_index
      ∧ combo ∈ product (dec_vars_permutations (self Demo.demo_state))
      ∧ scored (self Demo.demo_state) util_index table {[ "G" := 1 ]} combo
               {[ "Ad1" := 1 ]} u
      ∧ ∀ combo',
          combo' ∈ product (dec_vars_permutations (self Demo.demo_state)) →
          ∃ a' u', scored (self Demo.demo_state) util_index table
                          {[ "G" := 1 ]} combo' a' u'
                   ∧ (u <? u')%float = false.
Proof.
  assert (H1 : heap Demo.demo_state !! 0%nat = Some {[ "G" := 1 ]})
    by reflexivity.
  assert (H2 : (call_decide 0%nat Demo.demo_state).1
               = Ok (Some {[ "Ad1" := 1 ]})) by (vm_compute; reflexivity).
  exact (conj H1 (conj H2
    (decide_optimal_as_computed Demo.demo_state 0%nat _ _ H1 H2))).
Defined.

(** ** C3: ties *)

(** C3, as stated, fails: the column [Ad1] of the data starts with 1, both
    candidates tie, and [decide] returns [{"Ad1": 0}]. *)
Lemma first_observed_tie_break_counterexample :
  (call_decide 0%nat (State Demo.flat_engine [∅])).1
  = Ok (Some {[ "Ad1" := 0 ]})
  ∧ ¬ first_observed_tie_break Demo.demo_data Demo.flat_net ["Ad1"]
        Demo.demo_util [∅] 0%nat.
Proof.
  assert ((call_decide 0%nat (State Demo.flat_engine [∅])).1
          = Ok (Some {[ "Ad1" := 0 ]})) as Hcall by (vm_compute; reflexivity).
  split; [done|]. intros H.
  specialize (H Demo.flat_engine ∅ {[ "Ad1" := 0 ]} [[1; 0; 1; 0]]).
  destruct H as (key & table & i & Hup & before & combo & after & u
                 & Hsplit & [Ha Hu] & _ & Hb & _).
  - vm_compute. reflexivity.
  - reflexivity.
  - exact Hcall.
  - vm_compute. reflexivity.
  - change (product (first_observed <$> [[1; 0; 1; 0]])) with [[1]; [0]]
      in Hsplit.
    destruct before as [|c before].
    + injection Hsplit as <- _.
      assert (assignment Demo.flat_engine [1] = Ok {[ "Ad1" := 1 ]}) as Ha'
        by (vm_compute; reflexivity).
      rewrite Ha' in Ha. apply Ok_inj in Ha.
      apply (f_equal (.!! "Ad1")) in Ha. vm_compute in Ha. discriminate Ha.
    + injection Hsplit as <- Hsplit.
      apply Forall_cons in Hb as [(a' & u' & [Ha' Hu'] & Hle) _].
      destruct Hu as (probs & params & Hnet & Hlook & Hacc).
      destruct Hu' as (probs' & params' & Hnet' & Hlook' & Hacc').
      destruct Hup as (rest & Hum & Hi).
      injection Hum as <- <- <-. vm_compute in Hi. injection Hi as <-.
      injection Hnet as <-. injection Hnet' as <-.
      injection Hlook as <-. injection Hlook' as <-.
      rewrite Hacc in Hacc'. injection Hacc' as <-.
      vm_compute in Hacc. injection Hacc as <-.
      vm_compute in Hle. discriminate Hle.
Qed.

(** C3 (amended): when several assignments tie for the maximal computed
    utility, [decide] returns the first of them in the order of the
    enumeration, which is the product, in the declared order of the decision
    variables, of their domains held by the engine; the constructor lists
    each domain in ascending order of its values. *)
Theorem ascending_tie_break (data0 : dataset)
    (net : gmap string Z → result (list entry)) (dv : list string)
    (um : list (string * gmap Z number)) (eng : AdEngine)
    (h : list (gmap string Z)) (evidence : loc) (e a : gmap string Z) :
  init data0 net dv um = Ok eng →
  h !! evidence = Some e →
  (call_decide evidence (State eng h)).1 = Ok (Some a) →
  Forall2 (λ d pool, ∃ col, column data0 d = Ok col ∧ ascending_values col pool)
          dv (dec_vars_permutations eng)
  ∧ first_best eng e (product (dec_vars_permutations eng)) a.
Proof.
  intros Hinit Hev Hcall.
  apply init_Ok in Hinit as (perms & -> & Hperms). split; [done|].
  rewrite (call_decide_fst (State _ h) _ e Hev) in Hcall.
  by apply decision_first_best.
Qed.

Lemma ascending_tie_break_witness :
  init Demo.demo_data Demo.flat_net ["Ad1"] Demo.demo_util
  = Ok Demo.flat_engine
  ∧ ([∅] : list (gmap string Z)) !! 0%nat = Some ∅
  ∧ (call_decide 0%nat (State Demo.flat_engine [∅])).1
    = Ok (Some {[ "Ad1" := 0 ]})
  ∧ Forall2 (λ d pool, ∃ col, column Demo.demo_data d = Ok col
                              ∧ ascending_values col pool)
            ["Ad1"] (dec_vars_permutations Demo.flat_engine)
  ∧ first_best Demo.flat_engine ∅
      (product (dec_vars_permutations Demo.flat_engine)) {[ "Ad1" := 0 ]}.
Proof.
  assert (H1 : init Demo.demo_data Demo.flat_net ["Ad1"] Demo.demo_util
               = Ok Demo.flat_engine) by (vm_compute; reflexivity).
  assert (H2 : ([∅] : list (gmap string Z)) !! 0%nat = Some ∅) by reflexivity.
  assert (H3 : (call_decide 0%nat (State Demo.flat_engine [∅])).1
               = Ok (Some {[ "Ad1" := 0 ]})) by (vm_compute; reflexivity).
  exact (conj H1 (conj H2 (conj H3
    (ascending_tie_break _ _ _ _ _ _ _ _ _ H1 H2 H3)))).
Defined.

(** ** C4: no decision variable *)

(** C4, as stated, fails: an engine with no decision variable answers
    [decide({})] with the empty assignment. *)
Lemma no_decision_variables_counterexample :
  init Demo.demo_data Demo.demo_net [] Demo.demo_util = Ok Demo.bare_engine
  ∧ dec_vars Demo.bare_engine = []
  ∧ (call_decide 0%nat (State Demo.bare_engine [∅])).1 = Ok (Some ∅)
  ∧ ¬ fails (call_decide 0%nat (State Demo.bare_engine [∅])).1.
Proof.
  assert ((call_decide 0%nat (State Demo.bare_engine [∅])).1 = Ok (Some ∅))
    as Hcall by (vm_compute; reflexivity).
  repeat split; try done. rewrite Hcall. by intros [x Hx].
Qed.

(** C4 (amended): with an empty list of decision variables the enumeration
    consists of the empty assignment alone.  [decide] queries the network
    with the evidence as it stands; it returns the empty assignment when the
    utility computed for that query is greater than [-math.inf], and [None]
    when it is not; otherwise it raises the exception of the look-up, of the
    query or of the accumulation. *)
Theorem no_decision_variables (data0 : dataset)
    (net : gmap string Z → result (list entry))
    (um : list (string * gmap Z number)) (h : list (gmap string Z))
    (evidence : loc) (e : gmap string Z) :
  h !! evidence = Some e →
  ∃ eng,
    init data0 net [] um = Ok eng
    ∧ dec_vars eng = []
    ∧ product (dec_vars_permutations eng) = [[]]
    ∧ assignment eng [] = Ok ∅
    ∧ (call_decide evidence (State eng h)).1
      = (util_index ← utility_index eng;
         u ← utility eng util_index e;
         Ok (if (neg_infinity <? u)%float then Some ∅ else None)).
Proof.
  intros Hev. exists (Engine [] um data0 net []).
  repeat split.
  rewrite (call_decide_fst (State _ h) _ e Hev). cbn [self].
  unfold decision. cbn [dec_vars_permutations product select].
  destruct (utility_index _) as [util_index|]; cbn [mbind result_bind]; [|done].
  unfold candidate, assignment. cbn [dec_vars_permutations length seq fill].
  cbn [mbind result_bind]. unfold merged. rewrite (right_id_L ∅ (∪)).
  destruct (utility _ util_index e) as [u|]; cbn [mbind result_bind]; [|done].
  unfold choose. cbn [fst snd]. by destruct (neg_infinity <? u)%float.
Qed.

Lemma no_decision_variables_witness :
  ([∅] : list (gmap string Z)) !! 0%nat = Some ∅
  ∧ ∃ eng,
      init Demo.demo_data Demo.demo_net [] Demo.demo_util = Ok eng
      ∧ dec_vars eng = []
      ∧ product (dec_vars_permutations eng) = [[]]
      ∧ assignment eng [] = Ok ∅
      ∧ (call_decide 0%nat (State eng [∅])).1
        = (util_index ← utility_index eng;
           u ← utility eng util_index ∅;
           Ok (if (neg_infinity <? u)%float then Some ∅ else None)).
Proof.
  assert (H1 : ([∅] : list (gmap string Z)) !! 0%nat = Some ∅) by reflexivity.
  exact (conj H1 (no_decision_variables Demo.demo_data Demo.demo_net
                    Demo.demo_util [∅] 0%nat ∅ H1)).
Defined.

(** ** C5: a value without a score *)

(** C5, as stated, fails: without a score for the value 2, [decide] raises
    [KeyError]; with the score 0 for it, it returns an assignment. *)
Lemma missing_counts_zero_counterexample :
  (call_decide 0%nat Demo.short_state).1 = Raise KeyError
  ∧ ¬ missing_counts_zero Demo.short_engine [∅] 0%nat.
Proof.
  assert ((call_decide 0%nat Demo.short_state).1 = Raise KeyError)
    as Hcall by (vm_compute; reflexivity).
  split; [done|]. intros H.
  specialize (H "S" Demo.short_table [] 2 eq_refl eq_refl).
  change (State Demo.short_engine [∅]) with Demo.short_state in H.
  rewrite Hcall in H.
  assert ((call_decide 0%nat
             (State (with_util_map Demo.short_engine
                       [("S", <[2 := Int 0]> Demo.short_table)]) [∅])).1
          = Ok (Some {[ "Ad1" := 0 ]})) as Hzero by (vm_compute; reflexivity).
  rewrite Hzero in H. discriminate H.
Qed.

(** C5 (amended): when the posterior that the network returns for some
    candidate of the enumeration lists a value to which the utility table
    gives no score, [decide] returns no assignment: it raises.  For the first
    candidate of the enumeration the exception is [KeyError], provided no
    [int] score of the table is beyond the range of the floats (such a score
    can raise [OverflowError] first). *)
Theorem missing_score_raises (s : state) (evidence : loc) (e : gmap string Z)
    (key : string) (table : gmap Z number)
    (rest : list (string * gmap Z number))
    (util_index : nat) (before after : list (list Z)) (combo : list Z)
    (d : gmap string Z) (probs : list entry)
    (params : list (list (Z * float))) (util : list (Z * float)) (val : Z) :
  heap s !! evidence = Some e →
  util_map (self s) = (key, table) :: rest →
  index key (names (data (self s))) = Some util_index →
  product (dec_vars_permutations (self s)) = before ++ combo :: after →
  assignment (self s) combo = Ok d →
  network (self s) (merged e d) = Ok probs →
  probs !! util_index = Some (Distribution params) →
  util ∈ params → val ∈ keys util → table !! val = None →
  fails (call_decide evidence s).1
  ∧ (before = [] → convertible table →
     (call_decide evidence s).1 = Raise KeyError).
Proof.
  intros Hev Hum Hidx Hprod Ha Hnet Hup Hutil Hval Hnone.
  rewrite (call_decide_fst _ _ _ Hev).
  assert (utility_index (self s) = Ok util_index) as Hui.
  { unfold utility_index. rewrite Hum. cbn. by rewrite Hidx. }
  assert (candidate (self s) util_index e combo
          = (u ← accumulate table params; Ok (d, u))) as Hc.
  { unfold candidate. rewrite Ha. cbn [mbind result_bind].
    rewrite (utility_first_key _ _ _ _ _ _ Hum (index_lookup _ _ _ Hidx)).
    rewrite Hnet. cbn [mbind result_bind]. by rewrite Hup. }
  destruct (accumulate_missing _ _ _ _ Hutil Hval Hnone) as [x Hx].
  rewrite Hx in Hc. cbn [mbind result_bind] in Hc.
  unfold decision. rewrite Hui. cbn [mbind result_bind].
  rewrite Hprod, select_app.
  split.
  - destruct (select _ util_index e (None, neg_infinity) before) as [best|x'];
      cbn [mbind result_bind select]; [|by exists x'].
    rewrite Hc. by exists x.
  - intros -> Hconv. cbn [mbind result_bind select]. rewrite Hc.
    cbn [mbind result_bind].
    by rewrite (accumulate_KeyError _ _ _ Hconv Hx).
Qed.

Lemma missing_score_raises_witness :
  heap Demo.short_state !! 0%nat = Some ∅
  ∧ util_map (self Demo.short_state) = ("S", Demo.short_table) :: []
  ∧ index "S" (names (data (self Demo.short_state))) = Some 2%nat
  ∧ product (dec_vars_permutations (self Demo.short_state))
    = [] ++ [0] :: [[1]]
  ∧ assignment (self Demo.short_state) [0] = Ok {[ "Ad1" := 0 ]}
  ∧ network (self Demo.short_state) (merged ∅ {[ "Ad1" := 0 ]})
    = Ok Demo.short_probs
  ∧ Demo.short_probs !! 2%nat
    = Some (Distribution
              [[(0, Demo.half); (1, Demo.quarter); (2, Demo.quarter)]])
  ∧ [(0, Demo.half); (1, Demo.quarter); (2, Demo.quarter)]
    ∈ [[(0, Demo.half); (1, Demo.quarter); (2, Demo.quarter)]]
  ∧ 2 ∈ keys [(0, Demo.half); (1, Demo.quarter); (2, Demo.quarter)]
  ∧ Demo.short_table !! 2 = None
  ∧ convertible Demo.short_table
  ∧ fails (call_decide 0%nat Demo.short_state).1
  ∧ (call_decide 0%nat Demo.short_state).1 = Raise KeyError.
Proof.
  assert (H1 : heap Demo.short_state !! 0%nat = Some ∅) by reflexivity.
  assert (H2 : util_map (self Demo.short_state)
               = ("S", Demo.short_table) :: []) by reflexivity.
  assert (H3 : index "S" (names (data (self Demo.short_state))) = Some 2%nat)
    by (vm_compute; reflexivity).
  assert (H4 : product (dec_vars_permutations (self Demo.short_state))
               = [] ++ [0] :: [[1]]) by reflexivity.
  assert (H5 : assignment (self Demo.short_state) [0] = Ok {[ "Ad1" := 0 ]})
    by (vm_compute; reflexivity).
  assert (H6 : network (self Demo.short_state) (merged ∅ {[ "Ad1" := 0 ]})
               = Ok Demo.short_probs) by (vm_compute; reflexivity).
  assert (H7 : Demo.short_probs !! 2%nat
               = Some (Distribution
                         [[(0, Demo.half); (1, Demo.quarter);
                           (2, Demo.quarter)]]))
    by reflexivity.
  assert (H8 : [(0, Demo.half); (1, Demo.quarter); (2, Demo.quarter)]
               ∈ [[(0, Demo.half); (1, Demo.quarter); (2, Demo.quarter)]])
    by (by left).
  assert (H9 : 2 ∈ keys [(0, Demo.half); (1, Demo.quarter); (2, Demo.quarter)])
    by (by right; right; left).
  assert (H10 : Demo.short_table !! 2 = None) by (vm_compute; reflexivity).
  assert (H11 : convertible Demo.short_table).
  { intros v z Hv. unfold Demo.short_table in Hv.
    apply lookup_insert_Some in Hv as [[_ [= <-]]|[_ Hv]];
      [eexists; vm_compute; reflexivity|].
    apply lookup_singleton_Some in Hv as [_ [= <-]].
    eexists; vm_compute; reflexivity. }
  pose proof (missing_score_raises Demo.short_state 0%nat ∅ "S" _ [] 2%nat
                [] [[1]] [0] _ Demo.short_probs _ _ 2
                H1 H2 H3 H4 H5 H6 H7 H8 H9 H10) as [Hfails Hkey].
  exact (conj H1 (conj H2 (conj H3 (conj H4 (conj H5 (conj H6 (conj H7
    (conj H8 (conj H9 (conj H10 (conj H11
      (conj Hfails (Hkey eq_refl H11))))))))))))).
Defined.

(** ** C7: two calls *)

(** C7: a second call of [decide] with the same evidence, made on the engine
    as the first call left it, returns the same assignment. *)
Theorem decide_deterministic (s : state) (evidence : loc) (e : gmap string Z) :
  heap s !! evidence = Some e →
  (call_decide evidence (call_decide evidence s).2).1
  = (call_decide evidence s).1.
Proof.
  intros Hev. destruct (call_decide_run s evidence e Hev) as [t ->].
  cbn [fst snd].
  by rewrite (call_decide_fst (State _ (heap s ++ t)) evidence e)
    by by apply lookup_app_l_Some.
Qed.

Lemma decide_deterministic_witness :
  heap Demo.demo_state !! 0%nat = Some {[ "G" := 1 ]}
  ∧ (call_decide 0%nat (call_decide 0%nat Demo.demo_state).2).1
    = (call_decide 0%nat Demo.demo_state).1.
Proof.
  assert (H1 : heap Demo.demo_state !! 0%nat = Some {[ "G" := 1 ]})
    by reflexivity.
  exact (conj H1 (decide_deterministic Demo.demo_state 0%nat _ H1)).
Defined.

(** ** C8: values outside the domains *)

(** C8, as stated, fails: neither a utility score for the value 99, which
    the column [S] does not contain, nor the evidence [{"G": 7}], a value
    that [G] does not take, makes the constructor or [decide] fail. *)
Lemma domain_mismatch_counterexample :
  column Demo.demo_data "S" = Ok [0; 1; 2; 1]
  ∧ column Demo.demo_data "G" = Ok [0; 0; 1; 1]
  ∧ init Demo.demo_data Demo.demo_net ["Ad1"] Demo.wide_util
    = Ok Demo.wide_engine
  ∧ ¬ fails (init Demo.demo_data Demo.demo_net ["Ad1"] Demo.wide_util)
  ∧ (call_decide 0%nat (State Demo.wide_engine [{[ "G" := 7 ]}])).1
    = Ok (Some {[ "Ad1" := 1 ]})
  ∧ ¬ fails (call_decide 0%nat (State Demo.wide_engine [{[ "G" := 7 ]}])).1.
Proof.
  assert (init Demo.demo_data Demo.demo_net ["Ad1"] Demo.wide_util
          = Ok Demo.wide_engine) as Hinit by (vm_compute; reflexivity).
  assert ((call_decide 0%nat (State Demo.wide_engine [{[ "G" := 7 ]}])).1
          = Ok (Some {[ "Ad1" := 1 ]})) as Hcall by (vm_compute; reflexivity).
  repeat split; try done.
  - rewrite Hinit. by intros [x Hx].
  - rewrite Hcall. by intros [x Hx].
Qed.

(** C8 (amended): neither the constructor nor [decide] compares evidence or
    utility scores with the domains of the variables.  Every entry of the
    evidence reaches the posterior query unchanged, and a score for a value
    that no posterior of the utility parent lists changes neither what the
    constructor builds nor what [decide] returns. *)
Theorem no_domain_check (data0 : dataset)
    (net : gmap string Z → result (list entry)) (dv : list string)
    (key : string) (table : gmap Z number) (rest : list (string * gmap Z number))
    (v : Z) (q : number) (eng : AdEngine) (h : list (gmap string Z))
    (evidence : loc) (e : gmap string Z) :
  init data0 net dv ((key, table) :: rest) = Ok eng →
  h !! evidence = Some e →
  (∀ util_index query probs params util,
     index key (names data0) = Some util_index →
     net query = Ok probs →
     probs !! util_index = Some (Distribution params) →
     util ∈ params → v ∉ keys util) →
  init data0 net dv ((key, <[v := q]> table) :: rest)
  = Ok (with_util_map eng ((key, <[v := q]> table) :: rest))
  ∧ (call_decide evidence
       (State (with_util_map eng ((key, <[v := q]> table) :: rest)) h)).1
    = (call_decide evidence (State eng h)).1
  ∧ ∀ combo actions total_evidence s',
      candidate_evidence evidence combo (State eng h)
      = (Ok (actions, total_evidence), s') →
      ∃ query, heap s' !! total_evidence = Some query
               ∧ ∀ k x, e !! k = Some x → query !! k = Some x.
Proof.
  intros Hinit Hev Hv.
  split; [by eapply init_with_util_map|]. split.
  - rewrite (call_decide_fst (State _ h) evidence e Hev).
    rewrite (call_decide_fst (State _ h) evidence e Hev). cbn [self].
    apply init_Ok in Hinit as (perms & -> & _).
    eapply decision_with_util_map; [done|]. cbn [data network].
    intros util_index probs params query Hidx Hnet Hup.
    apply accumulate_insert. intros util Hutil.
    by eapply (Hv util_index query probs params).
  - intros combo actions total_evidence s'.
    rewrite (candidate_evidence_run _ _ _ _ _ Hev).
    destruct (fill eng combo _ ∅) as [[[]|x] d]; [|done].
    intros [= <- <- <-]. exists (merged e d). cbn [heap].
    split; [apply lookup_after_last|].
    intros k x Hk. by apply lookup_union_Some_l.
Qed.

Lemma no_domain_check_witness :
  init Demo.demo_data Demo.demo_net ["Ad1"] (("S", Demo.sale_table) :: [])
  = Ok Demo.demo_engine
  ∧ [{[ "G" := 7 ]}] !! 0%nat = Some ({[ "G" := 7 ]} : gmap string Z)
  ∧ (∀ util_index query probs params util,
       index "S" (names Demo.demo_data) = Some util_index →
       Demo.demo_net query = Ok probs →
       probs !! util_index = Some (Distribution params) →
       util ∈ params → 99 ∉ keys util)
  ∧ init Demo.demo_data Demo.demo_net ["Ad1"]
      (("S", <[99 := Int 1]> Demo.sale_table) :: [])
    = Ok (with_util_map Demo.demo_engine
            (("S", <[99 := Int 1]> Demo.sale_table) :: []))
  ∧ (call_decide 0%nat
       (State (with_util_map Demo.demo_engine
                 (("S", <[99 := Int 1]> Demo.sale_table) :: []))
              [{[ "G" := 7 ]}])).1
    = (call_decide 0%nat (State Demo.demo_engine [{[ "G" := 7 ]}])).1
  ∧ ∀ combo actions total_evidence s',
      candidate_evidence 0%nat combo (State Demo.demo_engine [{[ "G" := 7 ]}])
      = (Ok (actions, total_evidence), s') →
      ∃ query, heap s' !! total_evidence = Some query
               ∧ ∀ k x, ({[ "G" := 7 ]} : gmap string Z) !! k = Some x →
                        query !! k = Some x.
Proof.
  assert (H1 : init Demo.demo_data Demo.demo_net ["Ad1"]
                 (("S", Demo.sale_table) :: []) = Ok Demo.demo_engine)
    by (vm_compute; reflexivity).
  assert (H2 : [{[ "G" := 7 ]}] !! 0%nat
               = Some ({[ "G" := 7 ]} : gmap string Z)) by reflexivity.
  assert (H3 : ∀ util_index query probs params util,
       index "S" (names Demo.demo_data) = Some util_index →
       Demo.demo_net query = Ok probs →
       probs !! util_index = Some (Distribution params) →
       util ∈ params → 99 ∉ keys util).
  { intros util_index query probs params util Hidx Hnet Hup Hutil.
    vm_compute in Hidx. injection Hidx as <-.
    unfold Demo.demo_net in Hnet. injection Hnet as <-.
    cbn in Hup.
    destruct (query !! "Ad1") as [[|[]|]|]; injection Hup as <-;
      apply list_elem_of_singleton in Hutil as ->;
      cbn; rewrite !elem_of_cons, elem_of_nil; intros [|[|[|[]]]]; done. }
  exact (conj H1 (conj H2 (conj H3
    (no_domain_check _ _ _ "S" _ [] 99 (Int 1) _ _ 0%nat _ H1 H2 H3)))).
Defined.

(** ** C9: what a call leaves behind *)

(** C9: a call of [decide] leaves the engine and every dictionary that
    existed before the call, the caller's evidence among them, as they were;
    its result depends on the engine and on the contents of the evidence
    only. *)
Theorem decide_frame (s : state) (evidence : loc) (e : gmap string Z) :
  heap s !! evidence = Some e →
  (decide evidence s).2 = (call_decide evidence s).2
  ∧ self (call_decide evidence s).2 = self s
  ∧ heap (call_decide evidence s).2 !! evidence = Some e
  ∧ (∀ l d, heap s !! l = Some d →
            heap (call_decide evidence s).2 !! l = Some d)
  ∧ ∀ s2 evidence2,
      self s2 = self s → heap s2 !! evidence2 = Some e →
      (call_decide evidence2 s2).1 = (call_decide evidence s).1.
Proof.
  intros Hev.
  assert ((decide evidence s).2 = (call_decide evidence s).2) as Hsame.
  { unfold call_decide. by destruct (decide evidence s). }
  destruct (call_decide_run s evidence e Hev) as [t Hrun].
  rewrite Hsame, Hrun. cbn [fst snd self heap].
  split; [done|]. split; [done|]. split; [by apply lookup_app_l_Some|].
  split; [intros l d; apply lookup_app_l_Some|].
  intros s2 evidence2 Hself Hev2.
  by rewrite (call_decide_fst _ _ _ Hev2), Hself.
Qed.

Lemma decide_frame_witness :
  heap Demo.demo_state !! 0%nat = Some {[ "G" := 1 ]}
  ∧ (decide 0%nat Demo.demo_state).2 = (call_decide 0%nat Demo.demo_state).2
  ∧ self (call_decide 0%nat Demo.demo_state).2 = self Demo.demo_state
  ∧ heap (call_decide 0%nat Demo.demo_state).2 !! 0%nat = Some {[ "G" := 1 ]}
  ∧ (∀ l d, heap Demo.demo_state !! l = Some d →
            heap (call_decide 0%nat Demo.demo_state).2 !! l = Some d)
  ∧ ∀ s2 evidence2,
      self s2 = self Demo.demo_state →
      heap s2 !! evidence2 = Some {[ "G" := 1 ]} →
      (call_decide evidence2 s2).1 = (call_decide 0%nat Demo.demo_state).1.
Proof.
  assert (H1 : heap Demo.demo_state !! 0%nat = Some {[ "G" := 1 ]})
    by reflexivity.
  exact (conj H1 (decide_frame Demo.demo_state 0%nat _ H1)).
Defined.

(** ** C10: the first key of the utility map *)



(** * Further properties of the constructor and of [decide] *)

(** ** The constructor *)

Lemma init_columns (data0 : dataset)
    (net : gmap string Z → result (list entry)) (dv : list string)
    (um : list (string * gmap Z number)) :
  (Forall (λ d, d ∈ names data0) dv →
   ∃ perms, init data0 net dv um = Ok (Engine dv um data0 net perms)
            ∧ length perms = length dv)
  ∧ (¬ Forall (λ d, d ∈ names data0) dv →
     init data0 net dv um = Raise ValueError).
Proof.
  unfold init.
  destruct (comprehension _ dv) as [perms|x] eqn:Hperms.
  - apply comprehension_Forall2 in Hperms. split.
    + intros _. exists perms. split; [done|].
      symmetry. by eapply Forall2_length.
    + intros Hn. destruct Hn.
      clear -Hperms. induction Hperms as [|d pool dv perms Hd _ IH];
        constructor; [|done].
      apply column_Ok. destruct (column data0 d) as [col|]; [by exists col|done].
  - assert (¬ Forall (λ d, d ∈ names data0) dv ∧ x = ValueError) as [Hn ->].
    { clear -Hperms. revert Hperms.
      induction dv as [|d dv IH]; cbn; [done|].
      destruct (column data0 d) as [col|x'] eqn:Hd.
      - destruct (comprehension _ dv) as [ys|x'']; [done|].
        intros [= <-]. destruct IH as [Hn ->]; [done|].
        split; [|done]. intros Hall. apply Hn. by apply Forall_cons in Hall as [_ ?].
      - intros [= <-]. split; [|by eapply column_Raise].
        intros Hall. apply Forall_cons in Hall as [Hin _].
        apply column_Ok in Hin as [col Hcol]. by rewrite Hcol in Hd. }
    split; [done|done].
Qed.

(** The constructor raises what [np.genfromtxt] raises; when the file is
    read, what [BayesianNetwork.from_structure] raises; when the network is
    learned, it succeeds exactly when every decision variable names a column
    of the data, and otherwise raises numpy's [ValueError].  On success it
    keeps its arguments, the data and the network, and one candidate domain
    per decision variable. *)
Theorem construct_outcome (lib : library) (data_file : string)
    (st : structure) (dv : list string)
    (um : list (string * gmap Z number)) :
  (∀ x, genfromtxt lib data_file = Raise x →
        construct lib data_file st dv um = Raise x)
  ∧ ∀ data0, genfromtxt lib data_file = Ok data0 →
      (∀ x, from_structure lib data0 st = Raise x →
            construct lib data_file st dv um = Raise x)
      ∧ ∀ net, from_structure lib data0 st = Ok net →
          (Forall (λ d, d ∈ names data0) dv →
           ∃ perms,
             construct lib data_file st dv um
             = Ok (Engine dv um data0 net perms)
             ∧ length perms = length dv)
          ∧ (¬ Forall (λ d, d ∈ names data0) dv →
             construct lib data_file st dv um = Raise ValueError).
Proof.
  unfold construct. split.
  - by intros x ->.
  - intros data0 ->. cbn [mbind result_bind]. split.
    + by intros x ->.
    + intros net ->. cbn [mbind result_bind]. apply init_columns.
Qed.

Lemma construct_outcome_witness :
  genfromtxt Cases.demo_library "wide.csv" = Raise OverflowError
  ∧ construct Cases.demo_library "wide.csv" [[]; []; [0%nat; 1%nat]]
      ["Ad1"] Demo.demo_util = Raise OverflowError
  ∧ genfromtxt Cases.demo_library "hw3_data.csv" = Ok Demo.demo_data
  ∧ from_structure Cases.demo_library Demo.demo_data [[]] = Raise ValueError
  ∧ construct Cases.demo_library "hw3_data.csv" [[]] ["Ad1"] Demo.demo_util
    = Raise ValueError
  ∧ from_structure Cases.demo_library Demo.demo_data [[]; []; [0%nat; 1%nat]]
    = Ok Demo.demo_net
  ∧ Forall (λ d, d ∈ names Demo.demo_data) ["Ad1"; "G"]
  ∧ (∃ perms,
       construct Cases.demo_library "hw3_data.csv" [[]; []; [0%nat; 1%nat]]
         ["Ad1"; "G"] Demo.demo_util
       = Ok (Engine ["Ad1"; "G"] Demo.demo_util Demo.demo_data Demo.demo_net
                    perms)
       ∧ length perms = length ["Ad1"; "G"])
  ∧ ¬ Forall (λ d, d ∈ names Demo.demo_data) ["Ad1"; "Ad2"]
  ∧ construct Cases.demo_library "hw3_data.csv" [[]; []; [0%nat; 1%nat]]
      ["Ad1"; "Ad2"] Demo.demo_util
    = Raise ValueError.
Proof.
  assert (H1 : genfromtxt Cases.demo_library "wide.csv" = Raise OverflowError)
    by reflexivity.
  assert (H2 : genfromtxt Cases.demo_library "hw3_data.csv"
               = Ok Demo.demo_data) by reflexivity.
  assert (H3 : from_structure Cases.demo_library Demo.demo_data [[]]
               = Raise ValueError) by reflexivity.
  assert (H4 : from_structure Cases.demo_library Demo.demo_data
                 [[]; []; [0%nat; 1%nat]] = Ok Demo.demo_net) by reflexivity.
  assert (H5 : Forall (λ d, d ∈ names Demo.demo_data) ["Ad1"; "G"]).
  { repeat constructor. }
  assert (H6 : ¬ Forall (λ d, d ∈ names Demo.demo_data) ["Ad1"; "Ad2"]).
  { intros [_ [H _]%Forall_cons]%Forall_cons. cbn in H.
    rewrite !elem_of_cons, elem_of_nil in H. by destruct H as [|[|[|[]]]]. }
  exact (conj H1 (conj
    (proj1 (construct_outcome Cases.demo_library "wide.csv"
              [[]; []; [0%nat; 1%nat]] ["Ad1"] Demo.demo_util) _ H1)
    (conj H2 (conj H3 (conj
      (proj1 (proj2 (construct_outcome Cases.demo_library "hw3_data.csv"
                       [[]] ["Ad1"] Demo.demo_util) _ H2) _ H3)
      (conj H4 (conj H5 (conj
        (proj1 (proj2 (proj2 (construct_outcome Cases.demo_library
                                "hw3_data.csv" [[]; []; [0%nat; 1%nat]]
                                ["Ad1"; "G"] Demo.demo_util) _ H2) _ H4) H5)
        (conj H6
          (proj2 (proj2 (proj2 (construct_outcome Cases.demo_library
                                  "hw3_data.csv" [[]; []; [0%nat; 1%nat]]
                                  ["Ad1"; "Ad2"] Demo.demo_util) _ H2) _ H4)
             H6)))))))))).
Defined.

(** ** The enumeration *)

(** [decide] enumerates exactly the tuples that give each decision variable,
    in the declared order, a value found in its column of the data, and it
    enumerates each of them once. *)
Theorem enumeration_exhaustive (data0 : dataset)
    (net : gmap string Z → result (list entry)) (dv : list string)
    (um : list (string * gmap Z number)) (eng : AdEngine) :
  init data0 net dv um = Ok eng →
  (∀ combo,
     combo ∈ product (dec_vars_permutations eng)
     ↔ Forall2 (λ x d, ∃ col, column data0 d = Ok col ∧ x ∈ col) combo dv)
  ∧ NoDup (product (dec_vars_permutations eng)).
Proof.
  intros (perms & -> & Hperms)%init_Ok. cbn [dec_vars_permutations]. split.
  - intros combo. rewrite elem_of_product.
    revert combo. induction Hperms as [|d pool dv perms Hd _ IH]; intros combo.
    + split; intros ->%Forall2_nil_inv_r; constructor.
    + destruct Hd as (col & Hcol & _ & Hmem). split.
      * intros (x & c & Hx & Hc & ->)%Forall2_cons_inv_r.
        constructor; [|by apply IH]. exists col. split; [done|]. by apply Hmem.
      * intros (x & c & (col' & Hcol' & Hx) & Hc & ->)%Forall2_cons_inv_r.
        rewrite Hcol in Hcol'. injection Hcol' as <-.
        constructor; [by apply Hmem|by apply IH].
  - apply NoDup_product.
    induction Hperms as [|d pool dv perms (col & _ & Hasc) _ IH];
      constructor; [by eapply ascending_NoDup|done].
Qed.

Lemma enumeration_exhaustive_witness :
  init Demo.demo_data Demo.demo_net ["Ad1"] Demo.demo_util
  = Ok Demo.demo_engine
  ∧ (∀ combo,
       combo ∈ product (dec_vars_permutations Demo.demo_engine)
       ↔ Forall2 (λ x d, ∃ col, column Demo.demo_data d = Ok col ∧ x ∈ col)
                 combo ["Ad1"])
  ∧ NoDup (product (dec_vars_permutations Demo.demo_engine)).
Proof.
  assert (H1 : init Demo.demo_data Demo.demo_net ["Ad1"] Demo.demo_util
               = Ok Demo.demo_engine) by (vm_compute; reflexivity).
  exact (conj H1 (enumeration_exhaustive _ _ _ _ _ H1)).
Defined.

(** ** The assignment that is returned *)




(** [decide] returns Python's [None] exactly when the utility parent is
    found and every candidate of the enumeration is evaluated, without an
    exception, to a utility that is not greater than [-math.inf], that is,
    to [-math.inf] or [nan].  There is no candidate at all exactly when some
    decision variable has an empty column. *)
Theorem decide_returns_None (data0 : dataset)
    (net : gmap string Z → result (list entry)) (dv : list string)
    (um : list (string * gmap Z number)) (eng : AdEngine)
    (h : list (gmap string Z)) (evidence : loc) (e : gmap string Z) :
  init data0 net dv um = Ok eng →
  h !! evidence = Some e →
  ((call_decide evidence (State eng h)).1 = Ok None
   ↔ ∃ util_index,
       utility_index eng = Ok util_index
       ∧ Forall (has_utility eng util_index e
                   (λ u, (neg_infinity <? u)%float = false))
                (product (dec_vars_permutations eng)))
  ∧ (product (dec_vars_permutations eng) = []
     ↔ ∃ d, d ∈ dv ∧ column data0 d = Ok []).
Proof.
  intros (perms & -> & Hperms)%init_Ok Hev.
  rewrite (call_decide_fst (State _ h) _ e Hev). cbn [self].
  split; [apply decision_None|].
  cbn [dec_vars_permutations]. rewrite product_nil.
  clear -Hperms. induction Hperms as [|d pool dv perms Hd _ IH].
  - split; [by intros ?%elem_of_nil|by intros (? & ?%elem_of_nil & _)].
  - destruct Hd as (col & Hcol & _ & Hmem).
    rewrite elem_of_cons, IH. split.
    + intros [<-|(d' & ? & ?)]; [|exists d'; split; [by right|done]].
      exists d. split; [by left|]. rewrite Hcol. f_equal.
      destruct col as [|x col]; [done|].
      by destruct (not_elem_of_nil x); apply Hmem; left.
    + intros (d' & [->|Hd']%elem_of_cons & Hnil); [|right; by exists d'].
      left. rewrite Hcol in Hnil. injection Hnil as ->.
      destruct pool as [|x pool]; [done|].
      by destruct (not_elem_of_nil x); apply Hmem; left.
Qed.

Lemma decide_returns_None_witness :
  init Demo.demo_data Demo.demo_net ["Ad1"] [("S", Cases.ruinous_table)]
  = Ok Cases.ruinous_engine
  ∧ ([∅] : list (gmap string Z)) !! 0%nat = Some ∅
  ∧ (call_decide 0%nat (State Cases.ruinous_engine [∅])).1 = Ok None
  ∧ ((call_decide 0%nat (State Cases.ruinous_engine [∅])).1 = Ok None
     ↔ ∃ util_index,
         utility_index Cases.ruinous_engine = Ok util_index
         ∧ Forall (has_utility Cases.ruinous_engine util_index ∅
                     (λ u, (neg_infinity <? u)%float = false))
                  (product (dec_vars_permutations Cases.ruinous_engine)))
  ∧ (product (dec_vars_permutations Cases.ruinous_engine) = []
     ↔ ∃ d, d ∈ ["Ad1"] ∧ column Demo.demo_data d = Ok []).
Proof.
  assert (H1 : init Demo.demo_data Demo.demo_net ["Ad1"]
                 [("S", Cases.ruinous_table)] = Ok Cases.ruinous_engine)
    by (vm_compute; reflexivity).
  assert (H2 : ([∅] : list (gmap string Z)) !! 0%nat = Some ∅) by reflexivity.
  assert (H3 : (call_decide 0%nat (State Cases.ruinous_engine [∅])).1
               = Ok None) by (vm_compute; reflexivity).
  exact (conj H1 (conj H2 (conj H3
    (decide_returns_None _ _ _ _ _ _ _ _ H1 H2)))).
Defined.

(** ** Exceptions *)

(** The utility parent is looked up before anything else: an empty utility
    map raises [IndexError], and a first key that is no column of the data
    raises [ValueError]; in both cases no dictionary is built and the network
    is not queried. *)
Theorem utility_parent_lookup (s : state) (evidence : loc) :
  (util_map (self s) = [] → call_decide evidence s = (Raise IndexError, s))
  ∧ ∀ key table rest,
      util_map (self s) = (key, table) :: rest →
      key ∉ names (data (self s)) →
      call_decide evidence s = (Raise ValueError, s).
Proof.
  unfold call_decide, decide. split.
  - intros Hum. rewrite bind_run. cbn [get_self]. cbv zeta.
    rewrite bind_run. cbn [get_self].
    by rewrite bind_run, or_raise_run, Hum.
  - intros key table rest Hum Hkey%index_None.
    rewrite bind_run. cbn [get_self]. cbv zeta.
    rewrite bind_run. cbn [get_self].
    rewrite bind_run, or_raise_run, Hum.
    cbn [keys fmap list_fmap head required fst].
    by rewrite bind_run, or_raise_run, Hkey.
Qed.

Lemma utility_parent_lookup_witness :
  util_map (self Cases.no_util_state) = []
  ∧ call_decide 0%nat Cases.no_util_state
    = (Raise IndexError, Cases.no_util_state)
  ∧ util_map (self Cases.stray_state) = ("Q", Demo.sale_table) :: []
  ∧ ("Q" ∉ names (data (self Cases.stray_state)))
  ∧ call_decide 0%nat Cases.stray_state
    = (Raise ValueError, Cases.stray_state).
Proof.
  assert (H1 : util_map (self Cases.no_util_state) = []) by reflexivity.
  assert (H2 : util_map (self Cases.stray_state)
               = ("Q", Demo.sale_table) :: []) by reflexivity.
  assert (H3 : "Q" ∉ names (data (self Cases.stray_state))).
  { cbn. rewrite !elem_of_cons, elem_of_nil. by intros [|[|[|[]]]]. }
  exact (conj H1 (conj
    (proj1 (utility_parent_lookup Cases.no_util_state 0%nat) H1)
    (conj H2 (conj H3
       (proj2 (utility_parent_lookup Cases.stray_state 0%nat)
          "Q" Demo.sale_table [] H2 H3))))).
Defined.

(** An exception raised by the network is not caught: when the candidates
    enumerated before it were evaluated, [decide] raises it in its turn,
    whatever the candidates that follow would give. *)
Theorem network_exception_propagates (s : state) (evidence : loc)
    (e : gmap string Z) (util_index : nat) (before after : list (list Z))
    (combo : list Z) (d : gmap string Z) (x : exn) :
  heap s !! evidence = Some e →
  utility_index (self s) = Ok util_index →
  product (dec_vars_permutations (self s)) = before ++ combo :: after →
  Forall (λ c, ∃ r, candidate (self s) util_index e c = Ok r) before →
  assignment (self s) combo = Ok d →
  network (self s) (merged e d) = Raise x →
  (call_decide evidence s).1 = Raise x.
Proof.
  intros Hev Hui Hprod Hbefore Ha Hnet.
  rewrite (call_decide_fst _ _ _ Hev).
  eapply decision_first_failure; [done..|].
  unfold candidate, utility. rewrite Ha. cbn [mbind result_bind].
  by rewrite Hnet.
Qed.

Lemma network_exception_propagates_witness :
  heap Cases.fussy_state !! 0%nat = Some {[ "G" := 7 ]}
  ∧ utility_index (self Cases.fussy_state) = Ok 2%nat
  ∧ product (dec_vars_permutations (self Cases.fussy_state))
    = [] ++ [0] :: [[1]]
  ∧ Forall (λ c, ∃ r, candidate (self Cases.fussy_state) 2%nat
                        {[ "G" := 7 ]} c = Ok r) []
  ∧ assignment (self Cases.fussy_state) [0] = Ok {[ "Ad1" := 0 ]}
  ∧ network (self Cases.fussy_state)
      (merged {[ "G" := 7 ]} {[ "Ad1" := 0 ]}) = Raise LibraryError
  ∧ (call_decide 0%nat Cases.fussy_state).1 = Raise LibraryError.
Proof.
  assert (H1 : heap Cases.fussy_state !! 0%nat = Some {[ "G" := 7 ]})
    by reflexivity.
  assert (H2 : utility_index (self Cases.fussy_state) = Ok 2%nat)
    by (vm_compute; reflexivity).
  assert (H3 : product (dec_vars_permutations (self Cases.fussy_state))
               = [] ++ [0] :: [[1]]) by reflexivity.
  assert (H4 : Forall (λ c, ∃ r, candidate (self Cases.fussy_state) 2%nat
                               {[ "G" := 7 ]} c = Ok r) [])
    by constructor.
  assert (H5 : assignment (self Cases.fussy_state) [0] = Ok {[ "Ad1" := 0 ]})
    by (vm_compute; reflexivity).
  assert (H6 : network (self Cases.fussy_state)
                 (merged {[ "G" := 7 ]} {[ "Ad1" := 0 ]}) = Raise LibraryError)
    by (vm_compute; reflexivity).
  exact (conj H1 (conj H2 (conj H3 (conj H4 (conj H5 (conj H6
    (network_exception_propagates Cases.fussy_state 0%nat _ _ [] [[1]] [0]
       _ _ H1 H2 H3 H4 H5 H6))))))).
Defined.

(** When the answer of the network holds no distribution for the utility
    parent, [decide] raises: [AttributeError] if the entry is a bare value (a
    variable that the query fixes), [IndexError] if the answer is too
    short. *)
Theorem utility_parent_entry (s : state) (evidence : loc)
    (e : gmap string Z) (util_index : nat) (before after : list (list Z))
    (combo : list Z) (d : gmap string Z) (probs : list entry) :
  heap s !! evidence = Some e →
  utility_index (self s) = Ok util_index →
  product (dec_vars_permutations (self s)) = before ++ combo :: after →
  Forall (λ c, ∃ r, candidate (self s) util_index e c = Ok r) before →
  assignment (self s) combo = Ok d →
  network (self s) (merged e d) = Ok probs →
  (probs !! util_index = None →
   (call_decide evidence s).1 = Raise IndexError)
  ∧ ∀ v, probs !! util_index = Some (Observed v) →
         (call_decide evidence s).1 = Raise AttributeError.
Proof.
  intros Hev Hui Hprod Hbefore Ha Hnet.
  rewrite (call_decide_fst _ _ _ Hev).
  split; [intros Hup|intros v Hup];
    (eapply decision_first_failure; [done..|]);
    unfold candidate, utility; rewrite Ha; cbn [mbind result_bind];
    rewrite Hnet; cbn [mbind result_bind]; by rewrite Hup.
Qed.

Lemma utility_parent_entry_witness :
  heap Cases.observing_state !! 0%nat = Some {[ "S" := 2 ]}
  ∧ utility_index (self Cases.observing_state) = Ok 2%nat
  ∧ product (dec_vars_permutations (self Cases.observing_state))
    = [] ++ [0] :: [[1]]
  ∧ Forall (λ c, ∃ r, candidate (self Cases.observing_state) 2%nat
                        {[ "S" := 2 ]} c = Ok r) []
  ∧ assignment (self Cases.observing_state) [0] = Ok {[ "Ad1" := 0 ]}
  ∧ network (self Cases.observing_state)
      (merged {[ "S" := 2 ]} {[ "Ad1" := 0 ]})
    = Ok Cases.observed_probs
  ∧ (Cases.observed_probs !! 2%nat = None →
     (call_decide 0%nat Cases.observing_state).1 = Raise IndexError)
  ∧ ∀ v, Cases.observed_probs !! 2%nat = Some (Observed v) →
         (call_decide 0%nat Cases.observing_state).1 = Raise AttributeError.
Proof.
  assert (H1 : heap Cases.observing_state !! 0%nat = Some {[ "S" := 2 ]})
    by reflexivity.
  assert (H2 : utility_index (self Cases.observing_state) = Ok 2%nat)
    by (vm_compute; reflexivity).
  assert (H3 : product (dec_vars_permutations (self Cases.observing_state))
               = [] ++ [0] :: [[1]]) by reflexivity.
  assert (H4 : Forall (λ c, ∃ r, candidate (self Cases.observing_state) 2%nat
                               {[ "S" := 2 ]} c = Ok r) [])
    by constructor.
  assert (H5 : assignment (self Cases.observing_state) [0]
               = Ok {[ "Ad1" := 0 ]}) by (vm_compute; reflexivity).
  assert (H6 : network (self Cases.observing_state)
                 (merged {[ "S" := 2 ]} {[ "Ad1" := 0 ]})
               = Ok Cases.observed_probs) by (vm_compute; reflexivity).
  exact (conj H1 (conj H2 (conj H3 (conj H4 (conj H5 (conj H6
    (utility_parent_entry Cases.observing_state 0%nat _ _ [] [[1]] [0]
       _ _ H1 H2 H3 H4 H5 H6))))))).
Defined.

(** ** What the result depends on *)

(** [decide] consults the network only on the dictionaries made of the
    evidence and of one enumerated candidate: two networks that answer alike
    on these give the same result. *)
Theorem network_consulted (s : state) (evidence : loc) (e : gmap string Z)
    (net : gmap string Z → result (list entry)) :
  heap s !! evidence = Some e →
  (∀ combo d,
     combo ∈ product (dec_vars_permutations (self s)) →
     assignment (self s) combo = Ok d →
     net (merged e d) = network (self s) (merged e d)) →
  (call_decide evidence (State (with_network (self s) net) (heap s))).1
  = (call_decide evidence s).1.
Proof.
  intros Hev Hnet.
  rewrite (call_decide_fst (State _ (heap s)) evidence e Hev).
  rewrite (call_decide_fst _ _ _ Hev). cbn [self].
  unfold decision. change (utility_index (with_network (self s) net))
    with (utility_index (self s)).
  destruct (utility_index (self s)) as [util_index|]; cbn [mbind result_bind];
    [|done].
  cbn [with_network dec_vars_permutations].
  rewrite (select_ext_in (self s)); [done|].
  intros combo Hcombo. unfold candidate, assignment.
  rewrite fill_with_network. cbn [with_network dec_vars_permutations].
  destruct (fill (self s) combo _ ∅) as [[[]|x] d] eqn:Hfill;
    cbn [mbind result_bind]; [|done].
  unfold utility. cbn [with_network network].
  rewrite (Hnet combo d Hcombo); [done|].
  unfold assignment. by rewrite Hfill.
Qed.

Lemma network_consulted_witness :
  heap Demo.demo_state !! 0%nat = Some {[ "G" := 1 ]}
  ∧ (∀ combo d,
       combo ∈ product (dec_vars_permutations (self Demo.demo_state)) →
       assignment (self Demo.demo_state) combo = Ok d →
       Cases.partial_net (merged {[ "G" := 1 ]} d)
       = network (self Demo.demo_state) (merged {[ "G" := 1 ]} d))
  ∧ (call_decide 0%nat
       (State (with_network (self Demo.demo_state) Cases.partial_net)
              (heap Demo.demo_state))).1
    = (call_decide 0%nat Demo.demo_state).1.
Proof.
  assert (H1 : heap Demo.demo_state !! 0%nat = Some {[ "G" := 1 ]})
    by reflexivity.
  assert (H2 : ∀ combo d,
       combo ∈ product (dec_vars_permutations (self Demo.demo_state)) →
       assignment (self Demo.demo_state) combo = Ok d →
       Cases.partial_net (merged {[ "G" := 1 ]} d)
       = network (self Demo.demo_state) (merged {[ "G" := 1 ]} d)).
  { intros combo d Hin Ha.
    apply elem_of_cons in Hin as [->|Hin];
      [|apply list_elem_of_singleton in Hin as ->].
    - assert (assignment (self Demo.demo_state) [0] = Ok {[ "Ad1" := 0 ]})
        as Ha' by (vm_compute; reflexivity).
      rewrite Ha' in Ha. apply Ok_inj in Ha. subst d.
      vm_compute. reflexivity.
    - assert (assignment (self Demo.demo_state) [1] = Ok {[ "Ad1" := 1 ]})
        as Ha' by (vm_compute; reflexivity).
      rewrite Ha' in Ha. apply Ok_inj in Ha. subst d.
      vm_compute. reflexivity. }
  exact (conj H1 (conj H2
    (network_consulted Demo.demo_state 0%nat _ _ H1 H2))).
Defined.


(** ** Evidence that fixes the decision variables *)

(** When the evidence gives a value to every decision variable, each
    candidate is overridden in the query: the network is asked about the
    evidence alone and all candidates are computed the same utility.
    [decide] returns the first assignment of the enumeration when that
    utility is greater than [-math.inf], [None] when it is not, or raises
    what that one query raises. *)
Theorem decisions_fixed_by_evidence (data0 : dataset)
    (net : gmap string Z → result (list entry)) (dv : list string)
    (um : list (string * gmap Z number)) (eng : AdEngine)
    (h : list (gmap string Z)) (evidence : loc) (e : gmap string Z)
    (combo : list Z) (after : list (list Z)) :
  init data0 net dv um = Ok eng →
  h !! evidence = Some e →
  (∀ d, d ∈ dv → is_Some (e !! d)) →
  product (dec_vars_permutations eng) = combo :: after →
  ∃ a, assignment eng combo = Ok a
    ∧ (call_decide evidence (State eng h)).1
      = (util_index ← utility_index eng;
         u ← utility eng util_index e;
         Ok (if (neg_infinity <? u)%float then Some a else None)).
Proof.
  intros (perms & -> & Hperms)%init_Ok Hev Hfixed Hprod.
  set (eng := Engine dv um data0 net perms) in *.
  assert (length (dec_vars eng) = length (dec_vars_permutations eng)) as Hlen
    by by eapply Forall2_length.
  assert (∀ c, c ∈ product (dec_vars_permutations eng) →
            ∃ a, assignment eng c = Ok a
                 ∧ ∀ util_index, candidate eng util_index e c
                     = (u ← utility eng util_index e; Ok (a, u))) as Hcand.
  { intros c Hc.
    destruct (assignment_enumerated eng c Hlen Hc) as (a & Ha & Hkeys & _).
    exists a. split; [done|]. intros util_index.
    unfold candidate. rewrite Ha. cbn [mbind result_bind].
    replace (merged e a) with e; [done|].
    unfold merged. apply map_eq. intros k. rewrite lookup_union.
    destruct (e !! k) as [v|] eqn:Hk; [by destruct (a !! k)|].
    destruct (a !! k) as [v|] eqn:Hak; [|done].
    assert (is_Some (e !! k)) as [? Hk']; [|by rewrite Hk in Hk'].
    apply Hfixed, Hkeys. by exists v. }
  destruct (Hcand combo) as (a & Ha & Hc); [rewrite Hprod; by left|].
  exists a. split; [done|].
  rewrite (call_decide_fst (State _ h) _ e Hev). cbn [self].
  unfold decision.
  destruct (utility_index eng) as [util_index|]; cbn [mbind result_bind];
    [|done].
  rewrite Hprod. cbn [select]. rewrite Hc.
  destruct (utility eng util_index e) as [u|x] eqn:Hu;
    cbn [mbind result_bind]; [|done].
  unfold choose. cbn [fst snd].
  assert (∀ bu, (bu <? u)%float = false →
            Forall (has_utility eng util_index e
                      (λ u', (bu <? u')%float = false)) after) as Hrest.
  { intros bu Hbu. apply Forall_forall. intros c Hin.
    destruct (Hcand c) as (a' & _ & Hc'); [rewrite Hprod; by right|].
    exists a', u. by rewrite Hc', Hu. }
  destruct (neg_infinity <? u)%float eqn:Hgt.
  - by rewrite (select_none_greater _ _ _ _ _ _ (Hrest u (ltb_irrefl u))).
  - by rewrite (select_none_greater _ _ _ _ _ _ (Hrest _ Hgt)).
Qed.

Lemma decisions_fixed_by_evidence_witness :
  init Demo.demo_data Demo.demo_net ["Ad1"] Demo.demo_util
  = Ok Demo.demo_engine
  ∧ heap Demo.clash_state !! 0%nat = Some {[ "Ad1" := 1 ]}
  ∧ (∀ d, d ∈ ["Ad1"] → is_Some (({[ "Ad1" := 1 ]} : gmap string Z) !! d))
  ∧ product (dec_vars_permutations Demo.demo_engine) = [0] :: [[1]]
  ∧ ∃ a, assignment Demo.demo_engine [0] = Ok a
      ∧ (call_decide 0%nat (State Demo.demo_engine (heap Demo.clash_state))).1
        = (util_index ← utility_index Demo.demo_engine;
           u ← utility Demo.demo_engine util_index {[ "Ad1" := 1 ]};
           Ok (if (neg_infinity <? u)%float then Some a else None)).
Proof.
  assert (H1 : init Demo.demo_data Demo.demo_net ["Ad1"] Demo.demo_util
               = Ok Demo.demo_engine) by (vm_compute; reflexivity).
  assert (H2 : heap Demo.clash_state !! 0%nat = Some {[ "Ad1" := 1 ]})
    by reflexivity.
  assert (H3 : ∀ d, d ∈ ["Ad1"] →
               is_Some (({[ "Ad1" := 1 ]} : gmap string Z) !! d)).
  { intros d ->%list_elem_of_singleton. exists 1. vm_compute. reflexivity. }
  assert (H4 : product (dec_vars_permutations Demo.demo_engine)
               = [0] :: [[1]]) by reflexivity.
  exact (conj H1 (conj H2 (conj H3 (conj H4
    (decisions_fixed_by_evidence _ _ _ _ _ _ 0%nat _ _ _ H1 H2 H3 H4))))).
Defined.

(** ** A strict optimum *)

(** When the utility computed for one candidate is greater, in the
    comparison of floats, than the utility computed for every other
    candidate of the enumeration, the assignment that [decide] returns is
    that candidate's, wherever it stands in the enumeration. *)
Theorem strict_optimum_returned (s : state) (evidence : loc)
    (e a : gmap string Z) (key : string) (table : gmap Z number)
    (util_index : nat) (best : list Z) (a_best : gmap string Z)
    (u_best : float) :
  heap s !! evidence = Some e →
  (call_decide evidence s).1 = Ok (Some a) →
  utility_parent (self s) key table util_index →
  best ∈ product (dec_vars_permutations (self s)) →
  scored (self s) util_index table e best a_best u_best →
  (∀ combo a' u',
     combo ∈ product (dec_vars_permutations (self s)) → combo ≠ best →
     scored (self s) util_index table e combo a' u' →
     (u' <? u_best)%float = true) →
  a = a_best.
Proof.
  intros Hev Hcall Hup Hbest Hval Hstrict.
  rewrite (call_decide_fst _ _ _ Hev) in Hcall.
  apply decision_first_best in Hcall
    as (key' & table' & i & Hup' & before & combo & after & u
        & Hsplit & Hcombo & _ & Hb & Ha).
  destruct (utility_parent_unique _ _ _ _ _ _ _ Hup Hup') as (<- & <- & <-).
  destruct (base.decide (combo = best)) as [->|Hne];
    [by destruct (scored_unique _ _ _ _ _ _ _ _ _ Hcombo Hval)|].
  assert ((u <? u_best)%float = true) as Hlt.
  { eapply Hstrict; [|exact Hne|exact Hcombo].
    rewrite Hsplit. apply elem_of_app. right. by left. }
  exfalso. rewrite Hsplit in Hbest.
  apply elem_of_app in Hbest as [Hin|[->|Hin]%elem_of_cons]; [|done|].
  - eapply Forall_forall in Hb as (a' & u' & Hval' & Hu'); [|exact Hin].
    destruct (scored_unique _ _ _ _ _ _ _ _ _ Hval Hval') as [_ ->].
    by rewrite (ltb_leb _ _ Hlt) in Hu'.
  - eapply Forall_forall in Ha as (a' & u' & Hval' & Hu'); [|exact Hin].
    destruct (scored_unique _ _ _ _ _ _ _ _ _ Hval Hval') as [_ ->].
    by rewrite Hlt in Hu'.
Qed.

Lemma strict_optimum_returned_witness :
  heap Demo.demo_state !! 0%nat = Some {[ "G" := 1 ]}
  ∧ (call_decide 0%nat Demo.demo_state).1 = Ok (Some {[ "Ad1" := 1 ]})
  ∧ utility_parent (self Demo.demo_state) "S" Demo.sale_table 2
  ∧ [1] ∈ product (dec_vars_permutations (self Demo.demo_state))
  ∧ scored (self Demo.demo_state) 2 Demo.sale_table {[ "G" := 1 ]} [1]
           {[ "Ad1" := 1 ]} 10130%float
  ∧ (∀ combo a' u',
       combo ∈ product (dec_vars_permutations (self Demo.demo_state)) →
       combo ≠ [1] →
       scored (self Demo.demo_state) 2 Demo.sale_table {[ "G" := 1 ]}
              combo a' u' →
       (u' <? 10130)%float = true)
  ∧ ({[ "Ad1" := 1 ]} : gmap string Z) = {[ "Ad1" := 1 ]}.
Proof.
  assert (H1 : heap Demo.demo_state !! 0%nat = Some {[ "G" := 1 ]})
    by reflexivity.
  assert (H2 : (call_decide 0%nat Demo.demo_state).1
               = Ok (Some {[ "Ad1" := 1 ]})) by (vm_compute; reflexivity).
  assert (H3 : utility_parent (self Demo.demo_state) "S" Demo.sale_table 2).
  { exists []. split; [reflexivity|]. vm_compute. reflexivity. }
  assert (H4 : [1] ∈ product (dec_vars_permutations (self Demo.demo_state)))
    by (right; left).
  assert (H5 : scored (self Demo.demo_state) 2 Demo.sale_table {[ "G" := 1 ]}
                 [1] {[ "Ad1" := 1 ]} 10130%float).
  { split; [vm_compute; reflexivity|]. eexists _, _.
    split; [vm_compute; reflexivity|]. split; [reflexivity|].
    vm_compute. reflexivity. }
  assert (H6 : ∀ combo a' u',
       combo ∈ product (dec_vars_permutations (self Demo.demo_state)) →
       combo ≠ [1] →
       scored (self Demo.demo_state) 2 Demo.sale_table {[ "G" := 1 ]}
              combo a' u' →
       (u' <? 10130)%float = true).
  { intros combo a' u' Hin Hne [Ha (probs & params & Hnet & Hlook & Hu)].
    apply elem_of_cons in Hin as [->|Hin];
      [|by apply list_elem_of_singleton in Hin].
    assert (assignment (self Demo.demo_state) [0] = Ok {[ "Ad1" := 0 ]})
      as Ha' by (vm_compute; reflexivity).
    rewrite Ha' in Ha. apply Ok_inj in Ha. subst a'.
    assert (network (self Demo.demo_state)
              (merged {[ "G" := 1 ]} {[ "Ad1" := 0 ]})
            = Ok [Observed 0; Observed 1;
                  Distribution [[(0, Demo.half); (1, Demo.quarter);
                                 (2, Demo.quarter)]]]) as Hnet'
      by (vm_compute; reflexivity).
    rewrite Hnet' in Hnet. injection Hnet as <-. injection Hlook as <-.
    vm_compute in Hu. injection Hu as <-. vm_compute. reflexivity. }
  exact (conj H1 (conj H2 (conj H3 (conj H4 (conj H5 (conj H6
    (strict_optimum_returned Demo.demo_state 0%nat _ _ "S" _ _ [1] _ _
       H1 H2 H3 H4 H5 H6))))))).
Defined.

(** ** The dictionaries that a call builds *)

(** The dictionary that [decide] returns is a new object: it is none of the
    dictionaries that existed before the call, and so not the caller's
    evidence. *)
Theorem returned_dictionary_fresh (s : state) (evidence : loc)
    (e : gmap string Z) (l : loc) (s' : state) :
  heap s !! evidence = Some e →
  decide evidence s = (Ok (Some l), s') →
  l ≠ evidence
  ∧ heap s !! l = None
  ∧ is_Some (heap s' !! l).
Proof.
  intros Hev Hrun.
  destruct (decide_alloc _ _ _ _ _ Hev Hrun) as [_ Hl].
  specialize (Hl l eq_refl).
  pose proof (lookup_lt_Some _ _ _ Hev) as Hlt.
  split; [lia|]. split; [apply lookup_ge_None; lia|].
  apply lookup_lt_is_Some. lia.
Qed.

Lemma returned_dictionary_fresh_witness :
  heap Demo.demo_state !! 0%nat = Some {[ "G" := 1 ]}
  ∧ decide 0%nat Demo.demo_state
    = (Ok (Some 3%nat), (decide 0%nat Demo.demo_state).2)
  ∧ 3%nat ≠ 0%nat
  ∧ heap Demo.demo_state !! 3%nat = None
  ∧ is_Some (heap (decide 0%nat Demo.demo_state).2 !! 3%nat).
Proof.
  assert (H1 : heap Demo.demo_state !! 0%nat = Some {[ "G" := 1 ]})
    by reflexivity.
  assert (H2 : decide 0%nat Demo.demo_state
               = (Ok (Some 3%nat), (decide 0%nat Demo.demo_state).2))
    by (vm_compute; reflexivity).
  exact (conj H1 (conj H2
    (returned_dictionary_fresh Demo.demo_state 0%nat _ _ _ H1 H2))).
Defined.

(** A call that returns has built two dictionaries for each candidate of the
    enumeration, [actions] and [total_evidence], and nothing else. *)
Theorem two_dictionaries_per_candidate (s : state) (evidence : loc)
    (e : gmap string Z) (r : option loc) (s' : state) :
  heap s !! evidence = Some e →
  decide evidence s = (Ok r, s') →
  length (heap s')
  = (length (heap s)
     + 2 * length (product (dec_vars_permutations (self s))))%nat.
Proof. intros Hev Hrun. by destruct (decide_alloc _ _ _ _ _ Hev Hrun). Qed.

Lemma two_dictionaries_per_candidate_witness :
  heap Demo.demo_state !! 0%nat = Some {[ "G" := 1 ]}
  ∧ decide 0%nat Demo.demo_state
    = (Ok (Some 3%nat), (decide 0%nat Demo.demo_state).2)
  ∧ length (heap (decide 0%nat Demo.demo_state).2)
    = (length (heap Demo.demo_state)
       + 2 * length (product (dec_vars_permutations (self Demo.demo_state))))%nat.
Proof.
  assert (H1 : heap Demo.demo_state !! 0%nat = Some {[ "G" := 1 ]})
    by reflexivity.
  assert (H2 : decide 0%nat Demo.demo_state
               = (Ok (Some 3%nat), (decide 0%nat Demo.demo_state).2))
    by (vm_compute; reflexivity).
  exact (conj H1 (conj H2
    (two_dictionaries_per_candidate Demo.demo_state 0%nat _ _ _ H1 H2))).
Defined.

(** ** The data and the candidate domains *)

(** The candidate domains depend on the data only through the set of values
    of each decision variable's column: the order of the records and their
    repetitions do not matter. *)
Theorem domains_depend_on_values (data0 data1 : dataset)
    (net0 net1 : gmap string Z → result (list entry)) (dv : list string)
    (um0 um1 : list (string * gmap Z number)) (eng0 eng1 : AdEngine) :
  init data0 net0 dv um0 = Ok eng0 →
  init data1 net1 dv um1 = Ok eng1 →
  (∀ d col0 col1,
     d ∈ dv → column data0 d = Ok col0 → column data1 d = Ok col1 →
     ∀ x, x ∈ col0 ↔ x ∈ col1) →
  dec_vars_permutations eng1 = dec_vars_permutations eng0.
Proof.
  intros (perms0 & -> & H0)%init_Ok (perms1 & -> & H1)%init_Ok Hsame.
  cbn [dec_vars_permutations]. revert perms1 H1 Hsame.
  induction H0 as [|d pool0 dv perms0 (col0 & Hcol0 & Hp0) _ IH];
    intros perms1 H1 Hsame.
  - by apply Forall2_nil_inv_l in H1.
  - apply Forall2_cons_inv_l in H1
      as (pool1 & perms1' & (col1 & Hcol1 & Hp1) & H1 & ->).
    f_equal.
    + eapply ascending_values_unique; [exact Hp1|exact Hp0|].
      intros x. symmetry. eapply Hsame; [by left|done..].
    + apply IH; [done|]. intros d' c0 c1 Hd'. apply Hsame. by right.
Qed.

Lemma domains_depend_on_values_witness :
  init Demo.demo_data Demo.demo_net ["Ad1"] Demo.demo_util
  = Ok Demo.demo_engine
  ∧ init Cases.shuffled_data Demo.flat_net ["Ad1"] Demo.short_util
    = Ok (Engine ["Ad1"] Demo.short_util Cases.shuffled_data Demo.flat_net
                 [[0; 1]])
  ∧ (∀ d col0 col1,
       d ∈ ["Ad1"] →
       column Demo.demo_data d = Ok col0 →
       column Cases.shuffled_data d = Ok col1 →
       ∀ x, x ∈ col0 ↔ x ∈ col1)
  ∧ dec_vars_permutations
      (Engine ["Ad1"] Demo.short_util Cases.shuffled_data Demo.flat_net
              [[0; 1]])
    = dec_vars_permutations Demo.demo_engine.
Proof.
  assert (H1 : init Demo.demo_data Demo.demo_net ["Ad1"] Demo.demo_util
               = Ok Demo.demo_engine) by (vm_compute; reflexivity).
  assert (H2 : init Cases.shuffled_data Demo.flat_net ["Ad1"] Demo.short_util
               = Ok (Engine ["Ad1"] Demo.short_util Cases.shuffled_data
                            Demo.flat_net [[0; 1]]))
    by (vm_compute; reflexivity).
  assert (H3 : ∀ d col0 col1,
       d ∈ ["Ad1"] →
       column Demo.demo_data d = Ok col0 →
       column Cases.shuffled_data d = Ok col1 →
       ∀ x, x ∈ col0 ↔ x ∈ col1).
  { intros d col0 col1 ->%list_elem_of_singleton [= <-] [= <-] x.
    rewrite !elem_of_cons, !elem_of_nil. tauto. }
  exact (conj H1 (conj H2 (conj H3
    (domains_depend_on_values _ _ _ _ _ _ _ _ _ H1 H2 H3)))).
Defined.

(** ** When a call returns an assignment *)

Lemma mul_score_total (table : gmap Z number) (p : float) (val : Z)
    (score : number) :
  convertible table → table !! val = Some score →
  ∃ x, mul_score p score = Ok x.
Proof.
  intros Hconv Hval. destruct score as [z|f]; cbn; [|by eexists].
  destruct (Hconv _ _ Hval) as [f ->]. cbn. by eexists.
Qed.

Lemma accumulate_total (table : gmap Z number)
    (params : list (list (Z * float))) :
  convertible table →
  (∀ util val, util ∈ params → val ∈ keys util → is_Some (table !! val)) →
  ∃ u, accumulate table params = Ok u.
Proof.
  intros Hconv. unfold accumulate. generalize 0%float.
  induction params as [|util params IH]; intros acc Hscores; [by exists acc|].
  cbn [fold_result].
  assert (∀ vals acc0, vals ⊆ keys util →
            ∃ acc1, fold_result (weigh_table table util) acc0 vals = Ok acc1)
    as Hinner.
  { induction vals as [|val vals IHv]; intros acc0 Hsub; [by exists acc0|].
    cbn [fold_result].
    assert (∃ acc1, weigh_table table util acc0 val = Ok acc1) as [acc1 ->].
    { unfold weigh_table.
      destruct (getitem val util) as [p|] eqn:Hp.
      - destruct (Hscores util val) as [score Hs];
          [by left|apply Hsub; by left|].
        rewrite Hs. cbn.
        destruct (mul_score_total table p val score Hconv Hs) as [x ->].
        cbn. by eexists.
      - apply getitem_None in Hp. destruct Hp. apply Hsub. by left. }
    cbn [mbind result_bind]. apply IHv. intros v Hv. apply Hsub. by right. }
  destruct (Hinner (keys util) acc) as [acc1 ->]; [done|].
  cbn [mbind result_bind]. apply IH.
  intros u v Hu. apply Hscores. by right.
Qed.

(** [decide] raises no exception when the utility parent is a column of the
    data, the network answers each candidate's query with a distribution of
    the utility parent whose values all have a score, and no [int] score is
    beyond the range of the floats.  It then returns an assignment exactly
    when the utility computed for some candidate is greater than
    [-math.inf]. *)
Theorem decide_succeeds (data0 : dataset)
    (net : gmap string Z → result (list entry)) (dv : list string)
    (key : string) (table : gmap Z number)
    (rest : list (string * gmap Z number))
    (eng : AdEngine) (h : list (gmap string Z)) (evidence : loc)
    (e : gmap string Z) (util_index : nat) :
  init data0 net dv ((key, table) :: rest) = Ok eng →
  h !! evidence = Some e →
  index key (names data0) = Some util_index →
  convertible table →
  (∀ combo d,
     combo ∈ product (dec_vars_permutations eng) →
     assignment eng combo = Ok d →
     ∃ probs params,
       net (merged e d) = Ok probs
       ∧ probs !! util_index = Some (Distribution params)
       ∧ ∀ util val, util ∈ params → val ∈ keys util →
                     is_Some (table !! val)) →
  ∃ r, (call_decide evidence (State eng h)).1 = Ok r
    ∧ (is_Some r ↔
       ∃ combo a u,
         combo ∈ product (dec_vars_permutations eng)
         ∧ scored eng util_index table e combo a u
         ∧ (neg_infinity <? u)%float = true).
Proof.
  intros Hinit Hev Hidx Hconv Hnet.
  pose proof Hinit as (perms & -> & Hperms)%init_Ok.
  set (eng := Engine dv ((key, table) :: rest) data0 net perms) in *.
  assert (utility_parent eng key table util_index) as Hup by by exists rest.
  pose proof (utility_parent_index _ _ _ _ Hup) as Hui.
  assert (Forall (λ c, ∃ r, candidate eng util_index e c = Ok r)
            (product (dec_vars_permutations eng))) as Hall.
  { apply Forall_forall. intros combo Hcombo.
    destruct (assignment_enumerated eng combo) as (d & Hd & _);
      [by eapply Forall2_length|done|].
    destruct (Hnet combo d Hcombo Hd) as (probs & params & Hq & Hlook & Hsc).
    destruct (accumulate_total table params Hconv Hsc) as [u Hu].
    exists (d, u). apply (candidate_scored _ _ _ _ _ _ _ _ Hup).
    split; [done|]. by exists probs, params. }
  rewrite (call_decide_fst (State _ h) _ e Hev). cbn [self].
  destruct (decision eng e) as [[a|]|x] eqn:Hd.
  - exists (Some a). split; [done|]. split; [intros _|by eexists].
    apply decision_first_best in Hd
      as (key' & table' & i & Hup' & before & combo & after & u
          & Hsplit & Hcombo & Hu & _).
    destruct (utility_parent_unique _ _ _ _ _ _ _ Hup Hup') as (<- & <- & <-).
    exists combo, a, u. split; [|done].
    rewrite Hsplit. apply elem_of_app. right. by left.
  - exists None. split; [done|]. split; [by intros [? [=]]|].
    intros (combo & a & u & Hin & Hcombo & Hu). exfalso.
    apply decision_None in Hd as (i & Hui' & Hnone).
    rewrite Hui in Hui'. injection Hui' as <-.
    eapply Forall_forall in Hnone as (a' & u' & Hc & Hu'); [|exact Hin].
    apply (candidate_scored _ _ _ _ _ _ _ _ Hup) in Hc.
    destruct (scored_unique _ _ _ _ _ _ _ _ _ Hcombo Hc) as [_ <-].
    by rewrite Hu in Hu'.
  - exfalso. unfold decision in Hd. rewrite Hui in Hd.
    cbn [mbind result_bind] in Hd.
    destruct (select_all_Ok _ _ _ _ Hall (None, neg_infinity)) as [best Hbest].
    by rewrite Hbest in Hd.
Qed.

Lemma sale_table_convertible : convertible Demo.sale_table.
Proof.
  intros v z Hv. unfold Demo.sale_table in Hv.
  repeat (apply lookup_insert_Some in Hv as [[_ [= <-]]|[_ Hv]];
          [eexists; vm_compute; reflexivity|]).
  apply lookup_singleton_Some in Hv as [_ [= <-]].
  eexists; vm_compute; reflexivity.
Qed.

Lemma decide_succeeds_witness :
  init Demo.demo_data Demo.flat_net ["Ad1"] (("S", Demo.sale_table) :: [])
  = Ok Demo.flat_engine
  ∧ ([∅] : list (gmap string Z)) !! 0%nat = Some ∅
  ∧ index "S" (names Demo.demo_data) = Some 2%nat
  ∧ convertible Demo.sale_table
  ∧ (∀ combo d,
       combo ∈ product (dec_vars_permutations Demo.flat_engine) →
       assignment Demo.flat_engine combo = Ok d →
       ∃ probs params,
         Demo.flat_net (merged ∅ d) = Ok probs
         ∧ probs !! 2%nat = Some (Distribution params)
         ∧ ∀ util val, util ∈ params → val ∈ keys util →
                       is_Some (Demo.sale_table !! val))
  ∧ ∃ r, (call_decide 0%nat (State Demo.flat_engine [∅])).1 = Ok r
      ∧ (is_Some r ↔
         ∃ combo a u,
           combo ∈ product (dec_vars_permutations Demo.flat_engine)
           ∧ scored Demo.flat_engine 2 Demo.sale_table ∅ combo a u
           ∧ (neg_infinity <? u)%float = true).
Proof.
  assert (H1 : init Demo.demo_data Demo.flat_net ["Ad1"]
                 (("S", Demo.sale_table) :: []) = Ok Demo.flat_engine)
    by (vm_compute; reflexivity).
  assert (H2 : ([∅] : list (gmap string Z)) !! 0%nat = Some ∅) by reflexivity.
  assert (H3 : index "S" (names Demo.demo_data) = Some 2%nat)
    by (vm_compute; reflexivity).
  assert (H5 : ∀ combo d,
       combo ∈ product (dec_vars_permutations Demo.flat_engine) →
       assignment Demo.flat_engine combo = Ok d →
       ∃ probs params,
         Demo.flat_net (merged ∅ d) = Ok probs
         ∧ probs !! 2%nat = Some (Distribution params)
         ∧ ∀ util val, util ∈ params → val ∈ keys util →
                       is_Some (Demo.sale_table !! val)).
  { intros combo d _ _. eexists _, _. split; [reflexivity|].
    split; [reflexivity|].
    intros util val ->%list_elem_of_singleton Hval. cbn in Hval.
    rewrite !elem_of_cons, elem_of_nil in Hval.
    destruct Hval as [->|[->|[->|[]]]]; eexists; vm_compute; reflexivity. }
  exact (conj H1 (conj H2 (conj H3 (conj sale_table_convertible (conj H5
    (decide_succeeds _ _ _ "S" _ [] _ _ 0%nat _ _ H1 H2 H3
       sale_table_convertible H5)))))).
Defined.

(** ** A score beyond the range of the floats *)

Lemma weigh_table_overflow (table : gmap Z number) (util : list (Z * float))
    (acc : float) (val z : Z) :
  val ∈ keys util → table !! val = Some (Int z) →
  to_float z = Raise OverflowError →
  weigh_table table util acc val = Raise OverflowError.
Proof.
  intros Hval Hz Hover. unfold weigh_table.
  destruct (getitem val util) as [p|] eqn:Hp;
    [|by apply getitem_None in Hp].
  cbn. rewrite Hz. cbn. by rewrite Hover.
Qed.

Lemma weigh_table_scored (table : gmap Z number) (util : list (Z * float))
    (acc : float) (val : Z) (x : exn) :
  val ∈ keys util → is_Some (table !! val) →
  weigh_table table util acc val = Raise x → x = OverflowError.
Proof.
  intros Hval [score Hs]. unfold weigh_table.
  destruct (getitem val util) as [p|] eqn:Hp;
    [|by apply getitem_None in Hp].
  cbn. rewrite Hs. cbn.
  destruct (mul_score p score) as [y|x'] eqn:Hm; cbn; [done|].
  intros [= <-]. by apply mul_score_Raise in Hm as [-> _].
Qed.

(** An [int] score that cannot be converted stops the accumulation; when
    every listed value has a score, the exception is [OverflowError]. *)
Lemma accumulate_overflow (table : gmap Z number)
    (params : list (list (Z * float))) (util : list (Z * float)) (val z : Z) :
  util ∈ params → val ∈ keys util → table !! val = Some (Int z) →
  to_float z = Raise OverflowError →
  fails (accumulate table params)
  ∧ ((∀ util val, util ∈ params → val ∈ keys util → is_Some (table !! val)) →
     accumulate table params = Raise OverflowError).
Proof.
  intros Hutil Hval Hz Hover. unfold accumulate. generalize 0%float.
  assert (∀ ut vals acc, val ∈ vals → vals ⊆ keys util → ut = util →
            fails (fold_result (weigh_table table ut) acc vals)
            ∧ ((∀ v, v ∈ vals → is_Some (table !! v)) →
               fold_result (weigh_table table ut) acc vals
               = Raise OverflowError)) as Hinner.
  { intros ut vals acc Hin Hsub ->. revert acc.
    induction vals as [|v vals IH]; intros acc;
      [by apply elem_of_nil in Hin|].
    cbn [fold_result].
    destruct (weigh_table table util acc v) as [acc'|x] eqn:Hw;
      cbn [mbind result_bind].
    - apply elem_of_cons in Hin as [<-|Hin].
      + by rewrite (weigh_table_overflow _ _ _ _ _ Hval Hz Hover) in Hw.
      + destruct (IH Hin) with (acc := acc') as [Hf Ho].
        { intros w Hw'. apply Hsub. by right. }
        split; [done|]. intros Hsc. apply Ho. intros w Hw'. apply Hsc.
        by right.
    - split; [by exists x|]. intros Hsc. f_equal.
      eapply weigh_table_scored; [| |exact Hw].
      + apply Hsub. by left.
      + apply Hsc. by left. }
  assert (∀ ut vals acc x,
            vals ⊆ keys ut → (∀ v, v ∈ vals → is_Some (table !! v)) →
            fold_result (weigh_table table ut) acc vals = Raise x →
            x = OverflowError) as Hscored.
  { intros ut vals. induction vals as [|v vals IH]; intros acc x Hsub Hsc;
      [done|].
    cbn [fold_result].
    destruct (weigh_table table ut acc v) as [acc'|x'] eqn:Hw;
      cbn [mbind result_bind].
    - apply IH; [intros w Hw'; apply Hsub; by right|].
      intros w Hw'. apply Hsc. by right.
    - intros [= <-]. eapply weigh_table_scored; [| |exact Hw].
      + apply Hsub. by left.
      + apply Hsc. by left. }
  induction params as [|util' params IH]; intros acc;
    [by apply elem_of_nil in Hutil|].
  cbn [fold_result].
  destruct (fold_result (weigh_table table util') acc (keys util'))
    as [acc'|x] eqn:Hin; cbn [mbind result_bind].
  - apply elem_of_cons in Hutil as [<-|Hutil].
    + destruct (Hinner util (keys util) acc Hval) as [[x Hx] _]; [done..|].
      by rewrite Hx in Hin.
    + destruct (IH Hutil acc') as [Hf Ho]. split; [done|].
      intros Hsc. apply Ho. intros u v Hu. apply Hsc. by right.
  - split; [by exists x|]. intros Hsc. f_equal.
    eapply (Hscored util' (keys util') acc); [done| |exact Hin].
    intros v Hv. apply (Hsc util'); [by left|done].
Qed.

(** When the posterior returned for some candidate lists a value whose
    score is an [int] beyond the range of the floats, [decide] returns no
    assignment: it raises.  For the first candidate of the enumeration, when
    every value that its posterior lists has a score, the exception is
    [OverflowError]. *)
Theorem score_overflow_raises (s : state) (evidence : loc)
    (e : gmap string Z) (key : string) (table : gmap Z number)
    (rest : list (string * gmap Z number))
    (util_index : nat) (before after : list (list Z)) (combo : list Z)
    (d : gmap string Z) (probs : list entry)
    (params : list (list (Z * float))) (util : list (Z * float))
    (val z : Z) :
  heap s !! evidence = Some e →
  util_map (self s) = (key, table) :: rest →
  index key (names (data (self s))) = Some util_index →
  product (dec_vars_permutations (self s)) = before ++ combo :: after →
  assignment (self s) combo = Ok d →
  network (self s) (merged e d) = Ok probs →
  probs !! util_index = Some (Distribution params) →
  util ∈ params → val ∈ keys util → table !! val = Some (Int z) →
  to_float z = Raise OverflowError →
  fails (call_decide evidence s).1
  ∧ (before = [] →
     (∀ util val, util ∈ params → val ∈ keys util → is_Some (table !! val)) →
     (call_decide evidence s).1 = Raise OverflowError).
Proof.
  intros Hev Hum Hidx Hprod Ha Hnet Hup Hutil Hval Hz Hover.
  rewrite (call_decide_fst _ _ _ Hev).
  assert (utility_index (self s) = Ok util_index) as Hui.
  { unfold utility_index. rewrite Hum. cbn. by rewrite Hidx. }
  assert (candidate (self s) util_index e combo
          = (u ← accumulate table params; Ok (d, u))) as Hc.
  { unfold candidate. rewrite Ha. cbn [mbind result_bind].
    rewrite (utility_first_key _ _ _ _ _ _ Hum (index_lookup _ _ _ Hidx)).
    rewrite Hnet. cbn [mbind result_bind]. by rewrite Hup. }
  destruct (accumulate_overflow _ _ _ _ _ Hutil Hval Hz Hover) as [[x Hx] Ho].
  unfold decision. rewrite Hui. cbn [mbind result_bind].
  rewrite Hprod, select_app.
  split.
  - destruct (select _ util_index e (None, neg_infinity) before) as [best|x'];
      cbn [mbind result_bind select]; [|by exists x'].
    rewrite Hc, Hx. by exists x.
  - intros -> Hsc. cbn [mbind result_bind select]. rewrite Hc.
    by rewrite (Ho Hsc).
Qed.

Lemma score_overflow_raises_witness :
  heap (State (with_util_map Demo.demo_engine [("S", Cases.huge_table)]) [∅])
    !! 0%nat = Some ∅
  ∧ index "S" (names Demo.demo_data) = Some 2%nat
  ∧ assignment (with_util_map Demo.demo_engine [("S", Cases.huge_table)]) [0]
    = Ok {[ "Ad1" := 0 ]}
  ∧ Demo.demo_net (merged ∅ {[ "Ad1" := 0 ]}) = Ok Demo.short_probs
  ∧ Cases.huge_table !! 2 = Some (Int (10 ^ 400))
  ∧ to_float (10 ^ 400) = Raise OverflowError
  ∧ (∀ util val,
       util ∈ [[(0, Demo.half); (1, Demo.quarter); (2, Demo.quarter)]] →
       val ∈ keys util → is_Some (Cases.huge_table !! val))
  ∧ fails (call_decide 0%nat
             (State (with_util_map Demo.demo_engine
                       [("S", Cases.huge_table)]) [∅])).1
  ∧ (call_decide 0%nat
       (State (with_util_map Demo.demo_engine [("S", Cases.huge_table)])
              [∅])).1
    = Raise OverflowError.
Proof.
  set (s := State (with_util_map Demo.demo_engine [("S", Cases.huge_table)])
                  [∅]).
  assert (H1 : heap s !! 0%nat = Some ∅) by reflexivity.
  assert (H2 : util_map (self s) = ("S", Cases.huge_table) :: [])
    by reflexivity.
  assert (H3 : index "S" (names (data (self s))) = Some 2%nat)
    by (vm_compute; reflexivity).
  assert (H4 : product (dec_vars_permutations (self s)) = [] ++ [0] :: [[1]])
    by reflexivity.
  assert (H5 : assignment (self s) [0] = Ok {[ "Ad1" := 0 ]})
    by (vm_compute; reflexivity).
  assert (H6 : network (self s) (merged ∅ {[ "Ad1" := 0 ]})
               = Ok Demo.short_probs) by (vm_compute; reflexivity).
  assert (H7 : Demo.short_probs !! 2%nat
               = Some (Distribution
                         [[(0, Demo.half); (1, Demo.quarter);
                           (2, Demo.quarter)]]))
    by reflexivity.
  assert (H8 : [(0, Demo.half); (1, Demo.quarter); (2, Demo.quarter)]
               ∈ [[(0, Demo.half); (1, Demo.quarter); (2, Demo.quarter)]])
    by (by left).
  assert (H9 : 2 ∈ keys [(0, Demo.half); (1, Demo.quarter); (2, Demo.quarter)])
    by (by right; right; left).
  assert (H10 : Cases.huge_table !! 2 = Some (Int (10 ^ 400)))
    by (vm_compute; reflexivity).
  assert (H11 : to_float (10 ^ 400) = Raise OverflowError)
    by (vm_compute; reflexivity).
  assert (H12 : ∀ util val,
            util ∈ [[(0, Demo.half); (1, Demo.quarter); (2, Demo.quarter)]] →
            val ∈ keys util → is_Some (Cases.huge_table !! val)).
  { intros util val ->%list_elem_of_singleton Hv. cbn in Hv.
    rewrite !elem_of_cons, elem_of_nil in Hv.
    destruct Hv as [->|[->|[->|[]]]]; eexists; vm_compute; reflexivity. }
  pose proof (score_overflow_raises s 0%nat ∅ "S" _ [] 2%nat [] [[1]] [0] _
                Demo.short_probs _ _ 2 _
                H1 H2 H3 H4 H5 H6 H7 H8 H9 H10 H11) as [Hf Ho].
  exact (conj H1 (conj H3 (conj H5 (conj H6 (conj H10 (conj H11 (conj H12
    (conj Hf (Ho eq_refl H12))))))))).
Defined.
